(** * EventHandler (release 1.3.1): listeners, events and the handler

    A shallow embedding of [listener_src.cpp], [event.h] and
    [event_handler_src.cpp].

    Objects live in a store indexed by their address; a null pointer is
    address 0.  A member function that reaches other objects becomes a
    computation in a small state-and-failure monad over that store:
    failure stands for undefined behaviour or [std::terminate]
    (dereferencing a pointer to no object, joining a thread that is not
    joinable, deleting twice, ...).  Whatever a function does that other
    threads or the user can observe (a callback call, [reset()],
    [notify_one()], spawning or joining the worker, [delete]) is
    appended to a trace.

    A callback receives a [const EventBase&]: it is recorded in the
    trace and leaves the store alone.  [trigger()] is an observation of
    the event's state.

    The worker thread is modelled one loop iteration at a time, run on a
    snapshot of the store: other threads do not interleave inside an
    iteration. *)

From stdpp Require Import gmap list.
From Stdlib Require Import NArith Ascii.

Local Open Scope N_scope.

(** ** Pointers *)

Abbreviation ptr := N (only parsing).
Definition nullptr : ptr := 0.

(** The [EventFunc] typedef, a pointer to a function taking a
    [const EventBase&]: known by its address. *)
Abbreviation EventFunc := N (only parsing).

(** ** [enum ListenerType] *)

Inductive ListenerType :=
  | DYNAMIC_LISTENER   (* listener object is allocated as dynamic memory *)
  | STATIC_LISTENER.   (* listener object is allocated as static memory *)

(** ** [class EventBase]

    The two pure virtual members.  [S] is the state of the concrete
    event class; [trigger] observes it and [reset()] changes it.
    [reset_opt] gives the state [reset()] leaves, [None] where the call
    is undefined (a [pop_front()] on an empty queue).  The listener
    calls [reset()] on events it has just found triggered: an event
    class has to make the call defined there. *)

Class EventBase (S : Type) := {
  trigger : S -> bool;
  reset_opt : S -> option S;
  reset_triggered : forall s, trigger s = true -> is_Some (reset_opt s);
}.

(** The state [reset()] leaves where the call is defined. *)
Definition reset {S} `{EventBase S} (s : S) : S :=
  default s (reset_opt s).

(** An event object: the [cv] member of [EventBase] (the address of the
    listener whose condition variable it points to, or [None] for
    [nullptr]) and the members of the concrete class. *)
Record EventObj (S : Type) := {
  ev_cv : option ptr;
  ev_state : S;
}.
Arguments ev_cv {S} _.
Arguments ev_state {S} _.

(** ** [std::map<EventBase*, std::vector<EventFunc>>]

    The map is kept as the sequence of its entries in iteration order,
    which for [std::map] is ascending key order. *)

Abbreviation table := (list (ptr * list EventFunc)) (only parsing).

(** [m.find(k)], following the key comparisons. *)
Fixpoint map_find (k : ptr) (m : table) : option (list EventFunc) :=
  match m with
  | [] => None
  | (k', v) :: m' =>
      if k <? k' then None
      else if k =? k' then Some v
      else map_find k m'
  end.

(** [m[k].push_back(f)]: [operator[]] inserts an empty vector at the
    key's place when the key is absent. *)
Fixpoint map_push_back (k : ptr) (f : EventFunc) (m : table) : table :=
  match m with
  | [] => [(k, [f])]
  | (k', v) :: m' =>
      if k <? k' then (k, [f]) :: (k', v) :: m'
      else if k =? k' then (k', v ++ [f]) :: m'
      else (k', v) :: map_push_back k f m'
  end.

(** Strictly ascending keys: the shape every [std::map] has. *)
Fixpoint ascending (m : table) : Prop :=
  match m with
  | [] => True
  | (k, _) :: m' =>
      match m' with
      | [] => True
      | (k', _) :: _ => k < k' /\ ascending m'
      end
  end.

(** ** [class Listener] *)

Record Listener := {
  event2func : table;
  l_running : bool;          (* std::atomic_bool running *)
  listener_thread : bool;    (* std::thread: true when joinable *)
}.

Definition set_event2func (t : table) (L : Listener) : Listener :=
  {| event2func := t; l_running := l_running L;
     listener_thread := listener_thread L |}.

Definition set_running (b : bool) (L : Listener) : Listener :=
  {| event2func := event2func L; l_running := b;
     listener_thread := listener_thread L |}.

Definition set_thread (b : bool) (L : Listener) : Listener :=
  {| event2func := event2func L; l_running := l_running L;
     listener_thread := b |}.

(** ** Observable actions *)

Inductive action :=
  | Invoke (f : EventFunc) (e : ptr)  (* the callback f called on event e *)
  | Reset (e : ptr)                   (* e->reset() *)
  | NotifyOne (l : ptr)               (* l->cv.notify_one() *)
  | Spawn (l : ptr)                   (* std::thread(listen, l) *)
  | Join (l : ptr)                    (* l->listener_thread.join() *)
  | Delete (l : ptr).                 (* delete l *)

Global Instance action_eq_dec : EqDecision action.
Proof. solve_decision. Defined.

(** ** [class EventHandler] *)

Record EventHandler := {
  listeners : list ptr;
  listener_type : ListenerType;
  h_running : bool;
}.

Section Engine.

Context {S : Type} `{EventBase S}.

(** ** The store *)

Record World := {
  w_events : gmap N (EventObj S);
  w_listeners : gmap N Listener;
  w_trace : list action;
}.

Definition M (A : Type) : Type := World -> option (A * World).

Definition ret {A} (a : A) : M A := fun w => Some (a, w).

Definition bind {A B} (m : M A) (k : A -> M B) : M B :=
  fun w => match m w with
           | Some (a, w') => k a w'
           | None => None
           end.

Definition fail {A} : M A := fun _ => None.

Notation "x <- m ; k" := (bind m (fun x => k))
  (at level 100, m at next level, right associativity).
Notation "m ;; k" := (bind m (fun _ => k))
  (at level 100, right associativity).

Definition emit (a : action) : M unit :=
  fun w => Some (tt, {| w_events := w_events w;
                        w_listeners := w_listeners w;
                        w_trace := w_trace w ++ [a] |}).

Definition load_listener (l : ptr) : M Listener :=
  fun w => match w_listeners w !! l with
           | Some L => Some (L, w)
           | None => None
           end.

Definition store_listener (l : ptr) (L : Listener) : M unit :=
  fun w => Some (tt, {| w_events := w_events w;
                        w_listeners := <[l := L]> (w_listeners w);
                        w_trace := w_trace w |}).

Definition free_listener (l : ptr) : M unit :=
  fun w => match w_listeners w !! l with
           | Some _ => Some (tt, {| w_events := w_events w;
                                    w_listeners := delete l (w_listeners w);
                                    w_trace := w_trace w |})
           | None => None
           end.

Definition load_event (e : ptr) : M (EventObj S) :=
  fun w => match w_events w !! e with
           | Some E => Some (E, w)
           | None => None
           end.

Definition store_event (e : ptr) (E : EventObj S) : M unit :=
  fun w => Some (tt, {| w_events := <[e := E]> (w_events w);
                        w_listeners := w_listeners w;
                        w_trace := w_trace w |}).

Fixpoint for_each {A} (xs : list A) (body : A -> M unit) : M unit :=
  match xs with
  | [] => ret tt
  | x :: xs' => body x ;; for_each xs' body
  end.

(** ** [EventBase] members *)


Definition set_cv (this : ptr) (_cv : option ptr) : M unit :=
  E <- load_event this;
  store_event this {| ev_cv := _cv; ev_state := ev_state E |}.

Definition event_trigger (this : ptr) : M bool :=
  E <- load_event this;
  ret (trigger (ev_state E)).

Definition event_reset (this : ptr) : M unit :=
  E <- load_event this;
  match reset_opt (ev_state E) with
  | Some s =>
      store_event this {| ev_cv := ev_cv E; ev_state := s |} ;;
      emit (Reset this)
  | None => fail
  end.

(** [Event<T>::internal]: [cv] points into a listener object, which
    has to be alive for [notify_one()] to be called on it. *)
Definition internal (this : ptr) : M unit :=
  E <- load_event this;
  match ev_cv E with
  | Some c => load_listener c ;; emit (NotifyOne c)
  | None => ret tt
  end.

(** ** [Listener] members *)

(** [Listener::Listener]: the table starts empty, the thread handle not
    joinable. *)
Definition Listener_ctor (this : ptr) : M unit :=
  store_listener this
    {| event2func := []; l_running := false; listener_thread := false |}.

(** [listener_thread = std::thread(listen, this)]: move assignment to a
    joinable handle terminates the program. *)
Definition thread_spawn (this : ptr) : M unit :=
  L <- load_listener this;
  if listener_thread L then fail
  else store_listener this (set_thread true L) ;; emit (Spawn this).

(** [listener_thread.join()]: throws when the handle is not joinable. *)
Definition thread_join (this : ptr) : M unit :=
  L <- load_listener this;
  if listener_thread L
  then emit (Join this) ;; store_listener this (set_thread false L)
  else fail.

Definition Listener_start (this : ptr) : M unit :=
  L <- load_listener this;
  if negb (l_running L) then
    store_listener this (set_running true L) ;;
    thread_spawn this
  else ret tt.

Definition Listener_stop (this : ptr) : M unit :=
  L <- load_listener this;
  if l_running L then
    store_listener this (set_running false L) ;;
    emit (NotifyOne this) ;;
    thread_join this
  else ret tt.

(** The loop of [event_has_happened] over the table entries. *)
Fixpoint scan (t : table) : M (bool * ptr * option (list EventFunc)) :=
  match t with
  | [] => ret (false, nullptr, None)
  | (e, fs) :: t' =>
      b <- event_trigger e;
      if b then ret (true, e, Some fs) else scan t'
  end.

(** [Listener::event_has_happened]: the result and the two out
    parameters. *)
Definition event_has_happened (this : ptr)
  : M (bool * ptr * option (list EventFunc)) :=
  L <- load_listener this;
  scan (event2func L).

Definition register_event (this : ptr) (event : ptr) (func : EventFunc)
  : M unit :=
  L <- load_listener this;
  store_listener this
    (set_event2func (map_push_back event func (event2func L)) L) ;;
  set_cv event (Some this).

(** What one pass through the body of [while(l->running)] came to. *)
Inductive wake :=
  | Blocked      (* the wait predicate is false: the worker stays in wait *)
  | Dispatched   (* an event was serviced *)
  | Skipped.     (* woken with the flag cleared *)

(** The predicate given to [cv.wait]; [event] and [event_functions] are
    the captured locals, both [nullptr] before. *)
Definition wait_predicate (l : ptr)
  : M (bool * ptr * option (list EventFunc)) :=
  L <- load_listener l;
  if negb (l_running L) then ret (true, nullptr, None)
  else event_has_happened l.

(** The body of the loop in [Listener::listen]. *)
Definition listen_body (l : ptr) : M wake :=
  r <- wait_predicate l;
  let '(woken, event, event_functions) := r in
  if woken : bool then
    L <- load_listener l;
    if l_running L then
      match event_functions with
      | Some fs =>
          for_each fs (fun f => emit (Invoke f event)) ;;
          event_reset event ;;
          ret Dispatched
      | None => fail
      end
    else ret Skipped
  else ret Blocked.

(** How [Listener::listen] ended, for a bounded number of iterations. *)
Inductive listen_end :=
  | Returned     (* the loop was left *)
  | Waiting      (* blocked in [cv.wait] *)
  | Going.       (* iterations used up *)

Fixpoint listen (n : nat) (l : ptr) : M listen_end :=
  match n with
  | O => ret Going
  | Datatypes.S n' =>
      L <- load_listener l;
      if l_running L then
        r <- listen_body l;
        match r with
        | Blocked => ret Waiting
        | _ => listen n' l
        end
      else ret Returned
  end.

(** [Listener::~Listener], then the members: destroying a joinable
    [std::thread] terminates the program. *)
Definition Listener_dtor (this : ptr) : M unit :=
  Listener_stop this ;;
  L <- load_listener this;
  if listener_thread L then fail else ret tt.

(** [delete(l)] *)
Definition delete_Listener (l : ptr) : M unit :=
  if l =? nullptr then ret tt
  else Listener_dtor l ;; free_listener l ;; emit (Delete l).


(** ** [EventHandler] members *)

Definition set_listeners (ls : list ptr) (h : EventHandler) : EventHandler :=
  {| listeners := ls; listener_type := listener_type h;
     h_running := h_running h |}.

Definition set_h_running (b : bool) (h : EventHandler) : EventHandler :=
  {| listeners := listeners h; listener_type := listener_type h;
     h_running := b |}.

(** [EventHandler::EventHandler(ListenerType lt)]; the vector starts
    empty. *)
Definition EventHandler_ctor (lt : ListenerType) : EventHandler :=
  {| listeners := []; listener_type := lt; h_running := false |}.

(** [EventHandler::EventHandler(void)], a delegating constructor. *)
Definition EventHandler_default : EventHandler :=
  EventHandler_ctor DYNAMIC_LISTENER.

Definition EventHandler_start (h : EventHandler) : M EventHandler :=
  if negb (h_running h) then
    let h' := set_h_running true h in
    for_each (listeners h') Listener_start ;;
    ret h'
  else ret h.

Definition EventHandler_stop (h : EventHandler) : M EventHandler :=
  if h_running h then
    let h' := set_h_running false h in
    for_each (listeners h') Listener_stop ;;
    ret h'
  else ret h.

(** The range-for of [cleanup] binds each element by reference and
    leaves [nullptr] in its place. *)
Definition EventHandler_cleanup (h : EventHandler) : M EventHandler :=
  h1 <- EventHandler_stop h;
  h2 <- match listener_type h1 with
        | DYNAMIC_LISTENER =>
            for_each (listeners h1) delete_Listener ;;
            ret (set_listeners (map (fun _ => nullptr) (listeners h1)) h1)
        | STATIC_LISTENER => ret h1
        end;
  ret (set_listeners [] h2).

Definition EventHandler_add_listener (l : ptr) (h : EventHandler)
  : EventHandler :=
  if negb (h_running h) then set_listeners (listeners h ++ [l]) h
  else h.

Definition EventHandler_is_running (h : EventHandler) : bool := h_running h.

(** [EventHandler::~EventHandler] *)
Definition EventHandler_dtor (h : EventHandler) : M EventHandler :=
  EventHandler_cleanup h.

End Engine.

Arguments World S : clear implicits.
Arguments M S A : clear implicits.

(** ** The instance list of [Event<T>]

    One instantiation of the template: its static [instances] list and
    the [instance_iter] member of every object of the class. *)

Module Registry.

(** [std::list<void*>]: the nodes in order, each with its identity, so
    that an iterator keeps naming its node whatever happens to the
    others.  [fresh] is the identity the next node gets. *)
Record std_list := {
  nodes : list (N * ptr);
  fresh : N;
}.

Inductive iterator :=
  | At (n : N)
  | End.

Definition list_empty : std_list := {| nodes := []; fresh := 0 |}.

Definition push_back (v : ptr) (l : std_list) : std_list :=
  {| nodes := nodes l ++ [(fresh l, v)]; fresh := N.succ (fresh l) |}.

Definition list_end (l : std_list) : iterator := End.

(** The identity of the node before node [n], if [n] is in [ns] and is
    not the first. *)
Fixpoint before (n : N) (ns : list (N * ptr)) : option N :=
  match ns with
  | (a, _) :: (((b, _) :: _) as ns') =>
      if b =? n then Some a else before n ns'
  | _ => None
  end.

(** [--it]; undefined at [begin()]. *)
Definition iter_dec (l : std_list) (it : iterator) : option iterator :=
  match it with
  | End => match last (nodes l) with
           | Some (n, _) => Some (At n)
           | None => None
           end
  | At n => match before n (nodes l) with
            | Some m => Some (At m)
            | None => None
            end
  end.

Fixpoint unlink (n : N) (ns : list (N * ptr)) : option (list (N * ptr)) :=
  match ns with
  | [] => None
  | (m, v) :: ns' =>
      if m =? n then Some ns'
      else match unlink n ns' with
           | Some r => Some ((m, v) :: r)
           | None => None
           end
  end.

(** [l.erase(it)]; undefined when [it] names no node of [l]. *)
Definition erase (it : iterator) (l : std_list) : option std_list :=
  match it with
  | End => None
  | At n => match unlink n (nodes l) with
            | Some ns => Some {| nodes := ns; fresh := fresh l |}
            | None => None
            end
  end.

Record state := {
  instances : std_list;              (* inline static std::list instances *)
  objects : gmap N iterator;         (* this |-> this->instance_iter *)
}.

Definition init : state := {| instances := list_empty; objects := ∅ |}.

(** [get_instances()] *)
Definition get_instances (st : state) : list ptr :=
  snd <$> nodes (instances st).

(** [Event<T>::Event(void)] *)
Definition Event_ctor (this : ptr) (st : state) : option state :=
  let l := push_back this (instances st) in
  match iter_dec l (list_end l) with
  | Some it => Some {| instances := l; objects := <[this := it]> (objects st) |}
  | None => None
  end.

(** [Event<T>::~Event] *)
Definition Event_dtor (this : ptr) (st : state) : option state :=
  match objects st !! this with
  | Some it =>
      match erase it (instances st) with
      | Some l => Some {| instances := l; objects := delete this (objects st) |}
      | None => None
      end
  | None => None
  end.

(** The copy constructor [Event(const Event&)].  The class declares
    none, so the compiler generates it: it copies [instance_iter] from
    [other] and does not touch [instances]. *)
Definition Event_copy_ctor (this other : ptr) (st : state) : option state :=
  match objects st !! other with
  | Some it =>
      Some {| instances := instances st;
              objects := <[this := it]> (objects st) |}
  | None => None
  end.

(** The copy assignment [operator=(const Event&)], generated as well:
    [instance_iter] of [this] becomes that of [other]. *)
Definition Event_copy_assign (this other : ptr) (st : state) : option state :=
  match objects st !! this, objects st !! other with
  | Some _, Some it =>
      Some {| instances := instances st;
              objects := <[this := it]> (objects st) |}
  | _, _ => None
  end.

(** What a program does to the class: it constructs an object, by
    default or as a copy, in storage that holds no live object of the
    class, assigns a live object to another, or destroys a live one. *)
Inductive op :=
  | Construct (this : ptr)
  | Destruct (this : ptr)
  | CopyConstruct (this other : ptr)
  | Assign (this other : ptr).

Definition step (o : op) (st : state) : option state :=
  match o with
  | Construct a =>
      match objects st !! a with
      | Some _ => None
      | None => Event_ctor a st
      end
  | Destruct a => Event_dtor a st
  | CopyConstruct a b =>
      match objects st !! a with
      | Some _ => None
      | None => Event_copy_ctor a b st
      end
  | Assign a b => Event_copy_assign a b st
  end.

(** The operations written in the class: [Event(void)] and [~Event]. *)
Definition written (o : op) : Prop :=
  match o with
  | Construct _ | Destruct _ => True
  | CopyConstruct _ _ | Assign _ _ => False
  end.

Fixpoint run (ops : list op) (st : state) : option state :=
  match ops with
  | [] => Some st
  | o :: ops' =>
      match step o st with
      | Some st' => run ops' st'
      | None => None
      end
  end.

(** The instances alive after [ops], oldest first, read off the
    operations alone. *)
Fixpoint alive (ops : list op) (acc : list ptr) : list ptr :=
  match ops with
  | [] => acc
  | Construct a :: ops' => alive ops' (acc ++ [a])
  | Destruct a :: ops' => alive ops' (filter (fun b => b ≠ a) acc)
  | CopyConstruct a _ :: ops' => alive ops' (acc ++ [a])
  | Assign _ _ :: ops' => alive ops' acc
  end.

(** A sequence of operations that respects lifetimes, [acc] being the
    instances alive before it. *)
Fixpoint respects (ops : list op) (acc : list ptr) : Prop :=
  match ops with
  | [] => True
  | Construct a :: ops' => (a ∉ acc) /\ respects ops' (acc ++ [a])
  | Destruct a :: ops' => a ∈ acc /\ respects ops' (filter (fun b => b ≠ a) acc)
  | CopyConstruct a b :: ops' =>
      (a ∉ acc) /\ b ∈ acc /\ respects ops' (acc ++ [a])
  | Assign a b :: ops' => a ∈ acc /\ b ∈ acc /\ respects ops' acc
  end.

(** What holds of the list and the iterators between two operations:
    node identities are below [fresh] and distinct, no address is listed
    twice, and the objects are the listed addresses, each with an
    iterator to its own node. *)
Definition inv (st : state) : Prop :=
  Forall (fun p => p.1 < fresh (instances st)) (nodes (instances st)) /\
  NoDup (nodes (instances st)).*1 /\
  NoDup (nodes (instances st)).*2 /\
  forall a it, objects st !! a = Some it <->
               exists n, it = At n /\ (n, a) ∈ nodes (instances st).

(** An object and a copy of it. *)
Definition copy_ops : list op := [Construct 1; CopyConstruct 2 1].

(** Two objects, the first assigned to the second, the second then
    destroyed. *)
Definition assign_ops : list op :=
  [Construct 1; Construct 3; Assign 3 1; Destruct 3].

End Registry.

(** ** [class KeyEvent] of [main.cpp]

    The state is the [std::deque<char> event_queue]. *)

Definition KeyEvent_trigger (event_queue : list ascii) : bool :=
  (0 <? length event_queue)%nat.

(** [KeyEvent::reset], a [pop_front()]: undefined on an empty queue. *)
Definition KeyEvent_reset (event_queue : list ascii) : option (list ascii) :=
  match event_queue with
  | [] => None
  | _ :: q => Some q
  end.

Global Instance KeyEvent : EventBase (list ascii).
Proof.
  refine {| trigger := KeyEvent_trigger; reset_opt := KeyEvent_reset;
            reset_triggered := _ |}.
  intros [|c q] Hq; [discriminate Hq|exists q; reflexivity].
Defined.

(** [KeyEvent::push] on one instance: at most 4 queued characters. *)
Definition KeyEvent_push (c : ascii) (event_queue : list ascii) : list ascii :=
  if (length event_queue <? 4)%nat then event_queue ++ [c] else event_queue.

(** Programs used to state the properties below. *)

(** Registering one event with several listeners, one after the other. *)
Definition register_with {S} (event : ptr) (regs : list (ptr * EventFunc))
  : M S unit :=
  for_each regs (fun r => register_event r.1 event r.2).

(** Any sequence of registrations: listener, event, callback. *)
Definition register_all {S} (regs : list (ptr * ptr * EventFunc))
  : M S unit :=
  for_each regs (fun r => register_event r.1.1 r.1.2 r.2).

(** Adding listeners to a handler, in order. *)
Definition add_listeners (ls : list ptr) (h : EventHandler) : EventHandler :=
  fold_left (fun h l => EventHandler_add_listener l h) ls h.

(** A listener pointer the handler can use: it points to a listener
    object whose thread handle is joinable exactly when the listener is
    running. *)
Definition listener_ok {S} (w : World S) (l : ptr) : Prop :=
  l ≠ nullptr /\
  exists L, w_listeners w !! l = Some L /\ l_running L = listener_thread L.

(** A handler whose listeners are usable; one that owns its listeners
    holds each of them once. *)
Definition handler_ok {S} (h : EventHandler) (w : World S) : Prop :=
  Forall (listener_ok w) (listeners h) /\
  (listener_type h = DYNAMIC_LISTENER -> NoDup (listeners h)).

(** What stopping listeners may change between two stores: flags,
    thread handles and the trace.  No event changes, a usable listener
    stays usable, no listener object appears or disappears, and nothing
    is deleted. *)
Definition stop_frame {S} (w w' : World S) : Prop :=
  w_events w' = w_events w /\
  (forall l, listener_ok w l -> listener_ok w' l) /\
  (forall l, is_Some (w_listeners w' !! l) <-> is_Some (w_listeners w !! l)) /\
  exists tr, w_trace w' = w_trace w ++ tr /\ forall l, Delete l ∉ tr.

(** The entries of a table whose events are all alive and not
    triggered. *)
Definition untriggered {S} `{EventBase S} (w : World S)
  (t : list (ptr * list EventFunc)) : Prop :=
  Forall (fun p => exists E, w_events w !! p.1 = Some E /\
                             trigger (ev_state E) = false) t.

(** ** A small configuration

    Three [KeyEvent] objects and two listeners.  Listener 1 is running
    and has all three events registered; the first has an empty queue,
    the other two have keys waiting.  Listener 2 is idle. *)

Definition demo_listener1 : Listener :=
  {| event2func := [(10, [100]); (20, [101; 102]); (30, [103])];
     l_running := true; listener_thread := true |}.

Definition demo_listener2 : Listener :=
  {| event2func := []; l_running := false; listener_thread := false |}.

Definition demo_event (queue : list ascii) : EventObj (list ascii) :=
  {| ev_cv := Some 1; ev_state := queue |}.

Definition demo_world : World (list ascii) :=
  {| w_events := {[ 10 := demo_event [];
                    20 := demo_event ["a"%char];
                    30 := demo_event ["b"%char; "c"%char] ]};
     w_listeners := {[ 1 := demo_listener1; 2 := demo_listener2 ]};
     w_trace := [] |}.

Definition demo_handler (lt : ListenerType) : EventHandler :=
  {| listeners := [1; 2]; listener_type := lt; h_running := true |}.

(** Objects of one event class coming and going. *)
Definition demo_ops : list Registry.op :=
  [Registry.Construct 1; Registry.Construct 2; Registry.Destruct 1;
   Registry.Construct 3].

(** ** Calls in sequence, and what a pass leaves in the trace *)

(** Calls of [start()] ([true]) and [stop()] ([false]) on one listener,
    in order. *)
Definition start_stop_calls {S} (l : ptr) (calls : list bool) : M S unit :=
  for_each calls
    (fun c : bool => if c then Listener_start l else Listener_stop l).

(** [handler.stop(); handler.cleanup();], the way [main] ends. *)
Definition stop_then_cleanup {S} (h : EventHandler) : M S EventHandler :=
  bind (EventHandler_stop h) EventHandler_cleanup.


(** Whether [trigger()] holds of the event at [e]. *)
Definition is_triggered {S} `{EventBase S} (w : World S) (e : ptr) : bool :=
  match w_events w !! e with
  | Some E => trigger (ev_state E)
  | None => false
  end.

(** What dispatching one table entry adds to the trace. *)
Definition dispatch_trace (p : ptr * list EventFunc) : list action :=
  map (fun f => Invoke f p.1) p.2 ++ [Reset p.1].

(** The event at [e] after [n] calls of [reset()]. *)
Definition reset_times {S} `{EventBase S} (n : nat) (E : EventObj S)
  : EventObj S :=
  {| ev_cv := ev_cv E; ev_state := Nat.iter n reset (ev_state E) |}.

(** A table as [register_event] builds it: keys ascending, and at least
    one callback under every key. *)
Definition table_ok (t : list (ptr * list EventFunc)) : Prop :=
  ascending t /\ Forall (fun p => p.2 ≠ []) t.

(** ** More of [KeyEvent] *)

(** [KeyEvent::get_char]: [event_queue.at(0)] throws on an empty
    queue. *)
Definition KeyEvent_get_char (event_queue : list ascii) : option ascii :=
  head event_queue.

(** [KeyEvent::push], the loop over [get_instances()]: the character is
    queued where there is room, and [internal()] is called on every
    instance. *)
Definition KeyEvent_push_instances (instances : list ptr) (c : ascii)
  : M (list ascii) unit :=
  for_each instances (fun event =>
    bind (load_event event) (fun E =>
    bind (store_event event
            {| ev_cv := ev_cv E;
               ev_state := KeyEvent_push c (ev_state E) |}) (fun _ =>
    internal event))).

(** The characters typed one after the other into one queue. *)
Definition KeyEvent_push_all (cs : list ascii) (event_queue : list ascii)
  : list ascii :=
  fold_left (fun q c => KeyEvent_push c q) cs event_queue.

(** What the callbacks of the example print over [n] dispatches of one
    event: [get_char()] at each dispatch, [reset()] after it, for as
    long as the event is triggered. *)
Fixpoint KeyEvent_read (n : nat) (event_queue : list ascii) : list ascii :=
  match n with
  | O => []
  | Datatypes.S n' =>
      if KeyEvent_trigger event_queue then
        match KeyEvent_get_char event_queue, KeyEvent_reset event_queue with
        | Some c, Some q => c :: KeyEvent_read n' q
        | _, _ => []
        end
      else []
  end.

(** [n] calls of [reset()] in a row on one queue. *)
Fixpoint KeyEvent_reset_times (n : nat) (event_queue : list ascii)
  : option (list ascii) :=
  match n with
  | O => Some event_queue
  | Datatypes.S n' =>
      match KeyEvent_reset event_queue with
      | Some q => KeyEvent_reset_times n' q
      | None => None
      end
  end.

(** ** Two more configurations

    In the first the three queues hold at most one key each; in the
    second the event found first has three keys waiting. *)

Definition demo_single : World (list ascii) :=
  {| w_events := {[ 10 := demo_event [];
                    20 := demo_event ["a"%char];
                    30 := demo_event ["b"%char] ]};
     w_listeners := {[ 1 := demo_listener1; 2 := demo_listener2 ]};
     w_trace := [] |}.

Definition demo_busy : World (list ascii) :=
  {| w_events := {[ 10 := demo_event [];
                    20 := demo_event ["a"%char; "b"%char; "c"%char];
                    30 := demo_event ["d"%char] ]};
     w_listeners := {[ 1 := demo_listener1; 2 := demo_listener2 ]};
     w_trace := [] |}.



(** ** A listener before and after [start()] and [stop()] *)

(** The listener once [start()] has returned. *)
Definition started (L : Listener) : Listener :=
  {| event2func := event2func L; l_running := true;
     listener_thread := true |}.

(** The listener once [stop()] has returned. *)
Definition stopped (L : Listener) : Listener :=
  {| event2func := event2func L; l_running := false;
     listener_thread := false |}.

(** Whether [l] points to a listener whose flag is set. *)
Definition runs {S} (w : World S) (l : ptr) : bool :=
  match w_listeners w !! l with
  | Some L => l_running L
  | None => false
  end.

(** Whether [l] points to a listener whose flag is clear. *)
Definition idles {S} (w : World S) (l : ptr) : bool :=
  match w_listeners w !! l with
  | Some L => negb (l_running L)
  | None => false
  end.

(** What [start()] and [stop()] on [l] add to the trace. *)
Definition start_trace {S} (w : World S) (l : ptr) : list action :=
  if idles w l then [Spawn l] else [].

Definition stop_trace {S} (w : World S) (l : ptr) : list action :=
  if runs w l then [NotifyOne l; Join l] else [].


(** The entries of a table whose event is triggered, in table order. *)
Definition triggered_entries {S} `{EventBase S} (w : World S)
  (t : list (ptr * list EventFunc)) : list (ptr * list EventFunc) :=
  filter (fun p => is_triggered w p.1 = true) t.

(** [reset()] on each triggered event of the table leaves it not
    triggered. *)
Definition resets_clear {S} `{EventBase S} (w : World S)
  (t : list (ptr * list EventFunc)) : Prop :=
  Forall (fun p => forall E, w_events w !! p.1 = Some E ->
                     trigger (ev_state E) = true ->
                     trigger (reset (ev_state E)) = false) t.

(** A [KeyEvent] object after [push] has gone through it. *)
Definition KeyEvent_pushed (c : ascii) (E : EventObj (list ascii))
  : EventObj (list ascii) :=
  {| ev_cv := ev_cv E; ev_state := KeyEvent_push c (ev_state E) |}.

(** The events of [es] that are bound to a condition variable are
    bound to that of a listener which is alive. *)
Definition bound_alive {S} (w : World S) (es : list ptr) : Prop :=
  Forall (fun e => forall E l,
            w_events w !! e = Some E -> ev_cv E = Some l ->
            is_Some (w_listeners w !! l)) es.

(** What [internal()] on the event at [e] adds to the trace. *)
Definition notify_trace {S} (w : World S) (e : ptr) : list action :=
  match w_events w !! e with
  | Some E => match ev_cv E with
              | Some l => [NotifyOne l]
              | None => []
              end
  | None => []
  end.

(** ** Release 1.2.0: the polling listener

    The listener of the earlier release has no condition variable.  Its
    worker goes through the whole table again and again, sleeping
    [listener_interval] between two sweeps; an event has a main and a
    sub condition instead of [trigger].  [stop()] waits in a loop for
    the worker to clear [thread_working]; the thread is detached. *)

Module Polling.

Class EventBase (S : Type) := {
  main_condition : S -> bool;
  sub_condition : S -> bool;
  reset_opt : S -> option S;    (* None where reset() is undefined *)
  reset_main : forall s, main_condition s = true -> is_Some (reset_opt s);
}.

(** The state [reset()] leaves where the call is defined; the worker
    calls it on events whose main condition holds. *)
Definition reset {S} `{EventBase S} (s : S) : S :=
  default s (reset_opt s).

Record Listener := {
  event2func : list (ptr * list EventFunc);
  running : bool;
  thread_working : bool;
  listener_interval : N;     (* std::chrono::nanoseconds *)
}.

Definition set_running (b : bool) (L : Listener) : Listener :=
  {| event2func := event2func L; running := b;
     thread_working := thread_working L;
     listener_interval := listener_interval L |}.

Definition set_thread_working (b : bool) (L : Listener) : Listener :=
  {| event2func := event2func L; running := running L;
     thread_working := b; listener_interval := listener_interval L |}.

Inductive action :=
  | Invoke (f : EventFunc) (e : ptr)  (* the callback f called on event e *)
  | Reset (e : ptr)                   (* e->reset() *)
  | Spawn (l : ptr)                   (* thread(listen, l), detached *)
  | Sleep (ns : N).                   (* std::this_thread::sleep_for(ns) *)

Section Engine.

Context {S : Type} `{EventBase S}.

Record World := {
  w_events : gmap N S;
  w_listeners : gmap N Listener;
  w_trace : list action;
}.

Definition M (A : Type) : Type := World -> option (A * World).

Definition ret {A} (a : A) : M A := fun w => Some (a, w).

Definition bind {A B} (m : M A) (k : A -> M B) : M B :=
  fun w => match m w with
           | Some (a, w') => k a w'
           | None => None
           end.

Notation "x <- m ; k" := (bind m (fun x => k))
  (at level 100, m at next level, right associativity).
Notation "m ;; k" := (bind m (fun _ => k))
  (at level 100, right associativity).

Definition emit (a : action) : M unit :=
  fun w => Some (tt, {| w_events := w_events w;
                        w_listeners := w_listeners w;
                        w_trace := w_trace w ++ [a] |}).

Definition load_listener (l : ptr) : M Listener :=
  fun w => match w_listeners w !! l with
           | Some L => Some (L, w)
           | None => None
           end.

Definition store_listener (l : ptr) (L : Listener) : M unit :=
  fun w => Some (tt, {| w_events := w_events w;
                        w_listeners := <[l := L]> (w_listeners w);
                        w_trace := w_trace w |}).

Definition load_event (e : ptr) : M S :=
  fun w => match w_events w !! e with
           | Some s => Some (s, w)
           | None => None
           end.

Definition store_event (e : ptr) (s : S) : M unit :=
  fun w => Some (tt, {| w_events := <[e := s]> (w_events w);
                        w_listeners := w_listeners w;
                        w_trace := w_trace w |}).

Fixpoint for_each {A} (xs : list A) (body : A -> M unit) : M unit :=
  match xs with
  | [] => ret tt
  | x :: xs' => body x ;; for_each xs' body
  end.

Definition event_reset (this : ptr) : M unit :=
  s <- load_event this;
  match reset_opt s with
  | Some s' => store_event this s' ;; emit (Reset this)
  | None => fun _ => None
  end.

(** [Listener::Listener]: the listener runs at full speed by default. *)
Definition Listener_ctor (this : ptr) : M unit :=
  store_listener this
    {| event2func := []; running := false; thread_working := false;
       listener_interval := 0 |}.

Definition set_interval (this : ptr) (interval : N) : M unit :=
  L <- load_listener this;
  store_listener this
    {| event2func := event2func L; running := running L;
       thread_working := thread_working L; listener_interval := interval |}.

Definition register_event (this : ptr) (event : ptr) (func : EventFunc)
  : M unit :=
  L <- load_listener this;
  store_listener this
    {| event2func := map_push_back event func (event2func L);
       running := running L; thread_working := thread_working L;
       listener_interval := listener_interval L |}.

Definition Listener_start (this : ptr) : M unit :=
  L <- load_listener this;
  if negb (running L) then
    store_listener this (set_thread_working true (set_running true L)) ;;
    emit (Spawn this)
  else ret tt.

(** How the caller of [stop()] stands. *)
Inductive stop_end :=
  | Stopped      (* stop() has returned *)
  | Spinning.    (* still in while(thread_working) *)

(** One look at the condition of [while(this->thread_working);]. *)
Definition spin (this : ptr) : M stop_end :=
  L <- load_listener this;
  ret (if thread_working L then Spinning else Stopped).

Definition Listener_stop (this : ptr) : M stop_end :=
  L <- load_listener this;
  if running L then
    store_listener this (set_running false L) ;;
    spin this
  else ret Stopped.

(** The body of the [for] loop of [listen], for one table entry. *)
Definition sweep_entry (p : ptr * list EventFunc) : M unit :=
  s <- load_event p.1;
  let main := main_condition s in
  let sub := sub_condition s in
  (if main && sub then for_each p.2 (fun f => emit (Invoke f p.1))
   else ret tt) ;;
  if main then event_reset p.1 else ret tt.

Inductive listen_end :=
  | Returned     (* the loop was left and thread_working cleared *)
  | Going.       (* iterations used up *)

(** [Listener::listen], for a bounded number of sweeps. *)
Fixpoint listen (n : nat) (l : ptr) : M listen_end :=
  match n with
  | O => ret Going
  | Datatypes.S n' =>
      L <- load_listener l;
      if running L then
        for_each (event2func L) sweep_entry ;;
        L' <- load_listener l;
        emit (Sleep (listener_interval L')) ;;
        listen n' l
      else
        store_listener l (set_thread_working false L) ;;
        ret Returned
  end.

End Engine.

Arguments World S : clear implicits.
Arguments M S A : clear implicits.

(** The event once a sweep has gone past it. *)
Definition after_sweep {S} `{EventBase S} (s : S) : S :=
  if main_condition s then reset s else s.

(** What a sweep adds to the trace for one table entry. *)
Definition entry_trace {S} `{EventBase S} (w : World S)
  (p : ptr * list EventFunc) : list action :=
  match w_events w !! p.1 with
  | Some s =>
      (if main_condition s && sub_condition s
       then map (fun f => Invoke f p.1) p.2 else [])
      ++ (if main_condition s then [Reset p.1] else [])
  | None => []
  end.

(** [class KeyEvent] of the example of this release: every queued key
    passes the sub condition. *)
Global Instance KeyEvent : EventBase (list ascii).
Proof.
  refine {| main_condition := KeyEvent_trigger;
            sub_condition := fun _ => true;
            reset_opt := KeyEvent_reset; reset_main := _ |}.
  intros [|c q] Hq; [discriminate Hq|exists q; reflexivity].
Defined.

(** A listener polling every 5 ms, with two queues to watch. *)
Definition demo_listener : Listener :=
  {| event2func := [(10, [100; 101]); (20, [102])];
     running := true; thread_working := true;
     listener_interval := 5000000 |}.

Definition demo_world : World (list ascii) :=
  {| w_events := {[ 10 := ["a"%char]; 20 := ["b"%char] ]};
     w_listeners := {[ 1 := demo_listener;
                       2 := {| event2func := []; running := false;
                               thread_working := false;
                               listener_interval := 0 |} ]};
     w_trace := [] |}.

End Polling.

(** * Properties *)

(** Runs the primitive store operations of a computation. *)
Ltac run_store :=
  repeat (progress (unfold bind, ret, fail, emit, load_listener,
                      store_listener, free_listener, load_event, store_event;
                    cbn [w_events w_listeners w_trace])).

(** ** The registration table *)

Lemma map_find_push_back_eq k f m :
  map_find k (map_push_back k f m) = Some (default [] (map_find k m) ++ [f]).
Proof.
  induction m as [|[k' v] m IH]; simpl.
  - rewrite N.ltb_irrefl, N.eqb_refl. done.
  - destruct (k <? k') eqn:Hlt; simpl.
    + rewrite N.ltb_irrefl, N.eqb_refl. done.
    + destruct (k =? k') eqn:Heq; simpl.
      * rewrite Hlt, Heq. done.
      * rewrite Hlt, Heq. done.
Qed.

Lemma map_find_push_back_ne k k' f m :
  k ≠ k' -> map_find k' (map_push_back k f m) = map_find k' m.
Proof.
  intros Hne. induction m as [|[k0 v] m IH]; simpl.
  - destruct (k' <? k) eqn:Hlt; [done|].
    destruct (k' =? k) eqn:Heq; [|done].
    apply N.eqb_eq in Heq. congruence.
  - destruct (k <? k0) eqn:Hlt; simpl.
    + destruct (k' <? k) eqn:Hlt'.
      * apply N.ltb_lt in Hlt, Hlt'.
        assert ((k' <? k0) = true) as -> by (apply N.ltb_lt; lia). done.
      * destruct (k' =? k) eqn:Heq; [|done].
        apply N.eqb_eq in Heq. congruence.
    + destruct (k =? k0) eqn:Heq; simpl.
      * apply N.eqb_eq in Heq. subst k0.
        destruct (k' <? k); [done|].
        destruct (k' =? k) eqn:Heq'; [|done].
        apply N.eqb_eq in Heq'. congruence.
      * rewrite IH. done.
Qed.

Lemma ascending_push_back k f m :
  ascending m -> ascending (map_push_back k f m).
Proof.
  induction m as [|[k0 v] m IH]; simpl; [done|].
  intros Hm.
  destruct (k <? k0) eqn:Hlt.
  - apply N.ltb_lt in Hlt. simpl. done.
  - destruct (k =? k0) eqn:Heq.
    + simpl. done.
    + apply N.ltb_ge in Hlt. apply N.eqb_neq in Heq.
      destruct m as [|[k1 v1] m].
      * simpl. split; [lia|done].
      * destruct Hm as [Hk Hm]. specialize (IH Hm).
        simpl in IH |- *.
        destruct (k <? k1) eqn:Hlt1.
        -- split; [lia|]. done.
        -- destruct (k =? k1); split; done.
Qed.

Section EngineFacts.

Context {S : Type} `{EventBase S}.

Implicit Types (w : World S) (L : Listener) (E : EventObj S).

(** ** Listeners *)

Lemma Listener_start_running w l L :
  w_listeners w !! l = Some L -> l_running L = true ->
  Listener_start l w = Some (tt, w).
Proof.
  intros Hl Hr. unfold Listener_start, bind, load_listener.
  rewrite Hl, Hr. done.
Qed.

Lemma Listener_stop_idle w l L :
  w_listeners w !! l = Some L -> l_running L = false ->
  Listener_stop l w = Some (tt, w).
Proof.
  intros Hl Hr. unfold Listener_stop, bind, load_listener.
  rewrite Hl, Hr. done.
Qed.

(** C7: on any listener of any store, [start()] when the listener is
    running, and [stop()] when it is idle, return normally and leave the
    whole store as it was: flags, thread handles and tables of every
    listener, every event, and the trace, so that no worker is spawned,
    nothing is notified and nothing is joined. *)
Theorem Listener_start_stop_idempotent w l L :
  w_listeners w !! l = Some L ->
  (l_running L = true -> Listener_start l w = Some (tt, w)) /\
  (l_running L = false -> Listener_stop l w = Some (tt, w)).
Proof.
  intros Hl. split; intros Hr.
  - unfold Listener_start, bind, load_listener. by rewrite Hl, Hr.
  - unfold Listener_stop, bind, load_listener. by rewrite Hl, Hr.
Qed.

(** ** Registration *)

Lemma register_event_run w l e f L E :
  w_listeners w !! l = Some L -> w_events w !! e = Some E ->
  register_event l e f w =
    Some (tt, {| w_events := <[e := {| ev_cv := Some l;
                                        ev_state := ev_state E |}]> (w_events w);
                 w_listeners :=
                   <[l := set_event2func
                            (map_push_back e f (event2func L)) L]>
                     (w_listeners w);
                 w_trace := w_trace w |}).
Proof.
  intros Hl He.
  unfold register_event, set_cv. run_store.
  rewrite Hl. run_store. rewrite He. done.
Qed.


(** C4: two registrations of one event with the same listener append
    both callbacks, in the order of the calls, to the callbacks the
    event already had; the callbacks of every other event and the other
    listeners stay as they were. *)
Theorem register_event_accumulates w l L e E f1 f2 :
  w_listeners w !! l = Some L -> w_events w !! e = Some E ->
  exists w1 w2 L2,
    register_event l e f1 w = Some (tt, w1) /\
    register_event l e f2 w1 = Some (tt, w2) /\
    w_listeners w2 !! l = Some L2 /\
    map_find e (event2func L2)
      = Some (default [] (map_find e (event2func L)) ++ [f1; f2]) /\
    (forall e', e' ≠ e ->
       map_find e' (event2func L2) = map_find e' (event2func L)) /\
    (forall l', l' ≠ l -> w_listeners w2 !! l' = w_listeners w !! l').
Proof.
  intros Hl He.
  eexists _, _, _. split; [by apply register_event_run|].
  split.
  { eapply register_event_run; cbn [w_events w_listeners].
    - apply lookup_insert_eq.
    - apply lookup_insert_eq. }
  cbn [w_listeners]. split; [apply lookup_insert_eq|].
  cbn [set_event2func event2func]. split; [|split].
  - rewrite !map_find_push_back_eq. simpl.
    by rewrite <- app_assoc.
  - intros e' Hne. by rewrite !map_find_push_back_ne.
  - intros l' Hne. by rewrite !lookup_insert_ne.
Qed.

Lemma register_with_run e regs : forall w E,
  w_events w !! e = Some E ->
  Forall (fun r => is_Some (w_listeners w !! r.1)) regs ->
  exists w',
    register_with e regs w = Some (tt, w') /\
    w_trace w' = w_trace w /\
    w_events w' !! e
      = Some {| ev_cv := match last regs.*1 with
                         | Some l => Some l
                         | None => ev_cv E
                         end;
                ev_state := ev_state E |}.
Proof.
  induction regs as [|[l f] regs IH]; intros w E He Hlive.
  - exists w. destruct E. done.
  - apply Forall_cons in Hlive as [[L Hl] Hlive].
    unfold register_with. cbn [for_each]. unfold bind at 1.
    cbn [fst snd] in *.
    rewrite (register_event_run _ _ _ _ _ _ Hl He).
    match goal with |- context [for_each regs ?b ?w0] =>
      destruct (IH w0 {| ev_cv := Some l; ev_state := ev_state E |})
        as (w' & Hrun & Htr & Hev) end.
    + cbn [w_events]. apply lookup_insert_eq.
    + cbn [w_listeners]. eapply Forall_impl; [exact Hlive|].
      intros [l' f'] Hl'. cbn [fst] in *.
      destruct (decide (l = l')) as [<-|Hne].
      * rewrite lookup_insert_eq. eauto.
      * by rewrite lookup_insert_ne.
    + exists w'. split; [exact Hrun|]. split; [exact Htr|].
      rewrite Hev. cbn [ev_cv ev_state fmap list_fmap fst].
      rewrite last_cons. by destruct (last regs.*1).
Qed.

Lemma register_event_live w w' l0 e f l :
  register_event l0 e f w = Some (tt, w') ->
  is_Some (w_listeners w !! l) -> is_Some (w_listeners w' !! l).
Proof.
  unfold register_event, set_cv. run_store.
  destruct (w_listeners w !! l0) as [L0|]; [|done]. run_store.
  destruct (w_events w !! e) as [E|]; [|done].
  intros [= <-] Hl. cbn [w_listeners].
  destruct (decide (l0 = l)) as [<-|Hne];
    [rewrite lookup_insert_eq; eauto|by rewrite lookup_insert_ne].
Qed.

Lemma register_with_live e regs l : forall w w',
  register_with e regs w = Some (tt, w') ->
  is_Some (w_listeners w !! l) -> is_Some (w_listeners w' !! l).
Proof.
  induction regs as [|[l0 f] regs IH]; intros w w'.
  - by intros [= <-].
  - unfold register_with. cbn [for_each]. unfold bind at 1.
    destruct (register_event _ _ _ w) as [[[] w0]|] eqn:Hreg; [|done].
    intros Hrun Hl. apply (IH w0 w' Hrun).
    by eapply register_event_live.
Qed.

(** C3: an event holds one condition-variable pointer, and every
    [register_event] overwrites it with the registering listener's.
    After the event has been registered with the listeners of [regs] and
    then with [l], it points to the condition variable of [l], and
    [internal()] calls [notify_one()] once, on that one. *)
Theorem register_event_rebinds_cv w e E regs l f :
  w_events w !! e = Some E ->
  Forall (fun r => is_Some (w_listeners w !! r.1)) (regs ++ [(l, f)]) ->
  exists w1 E1 w2,
    register_with e (regs ++ [(l, f)]) w = Some (tt, w1) /\
    w_events w1 !! e = Some E1 /\ ev_cv E1 = Some l /\
    internal e w1 = Some (tt, w2) /\
    w_trace w2 = w_trace w1 ++ [NotifyOne l] /\
    w_events w2 = w_events w1 /\ w_listeners w2 = w_listeners w1.
Proof.
  intros He Hlive.
  destruct (register_with_run e _ w E He Hlive) as (w1 & Hrun & _ & Hev).
  rewrite fmap_app in Hev. change ([(l, f)].*1) with [l] in Hev.
  rewrite last_snoc in Hev.
  assert (is_Some (w_listeners w1 !! l)) as [L1 Hl1].
  { apply (register_with_live _ _ _ _ _ Hrun).
    apply Forall_app in Hlive as [_ Hlive].
    by apply Forall_cons in Hlive as [? _]. }
  eexists w1, _, _. split; [exact Hrun|]. split; [exact Hev|].
  split; [done|].
  unfold internal. run_store. rewrite Hev. cbn [ev_cv]. run_store.
  rewrite Hl1. done.
Qed.



(** ** The worker loop *)

Lemma scan_untriggered pre rest w :
  untriggered w pre -> scan (pre ++ rest) w = scan rest w.
Proof.
  induction 1 as [|[e' fs'] pre (E' & He' & Ht') _ IH]; [done|].
  cbn [app scan fst] in *. unfold event_trigger. run_store.
  rewrite He'. run_store. rewrite Ht'. exact IH.
Qed.

Lemma scan_hit e fs post w E :
  w_events w !! e = Some E -> trigger (ev_state E) = true ->
  scan ((e, fs) :: post) w = Some ((true, e, Some fs), w).
Proof.
  intros He Ht. cbn [scan]. unfold event_trigger. run_store.
  rewrite He. run_store. rewrite Ht. done.
Qed.

Lemma scan_none t w :
  untriggered w t -> scan t w = Some ((false, nullptr, None), w).
Proof.
  intros Hu. rewrite <- (app_nil_r t). by rewrite scan_untriggered.
Qed.

Lemma for_each_invoke e fs : forall w,
  for_each fs (fun f => emit (Invoke f e)) w
  = Some (tt, {| w_events := w_events w; w_listeners := w_listeners w;
                 w_trace := w_trace w ++ map (fun f => Invoke f e) fs |}).
Proof.
  induction fs as [|f fs IH]; intros w; cbn [for_each map].
  - rewrite app_nil_r. by destruct w.
  - run_store. rewrite IH. cbn [w_events w_listeners w_trace].
    by rewrite <- app_assoc.
Qed.

Lemma reset_opt_triggered (s : S) :
  trigger s = true -> reset_opt s = Some (reset s).
Proof.
  intros Ht. destruct (reset_triggered s Ht) as [s' Hs].
  unfold reset. by rewrite Hs.
Qed.

(** The iteration that finds [e] first: the store it leaves. *)
Lemma listen_body_dispatch w l L pre e fs post E :
  w_listeners w !! l = Some L -> l_running L = true ->
  event2func L = pre ++ (e, fs) :: post ->
  untriggered w pre ->
  w_events w !! e = Some E -> trigger (ev_state E) = true ->
  listen_body l w
  = Some (Dispatched,
          {| w_events := <[e := {| ev_cv := ev_cv E;
                                   ev_state := reset (ev_state E) |}]>
                           (w_events w);
             w_listeners := w_listeners w;
             w_trace := w_trace w ++ map (fun f => Invoke f e) fs
                          ++ [Reset e] |}).
Proof.
  intros Hl Hr Ht Hpre He Htr.
  unfold listen_body, wait_predicate, event_has_happened.
  unfold bind at 1 2. unfold load_listener at 1. rewrite Hl, Hr.
  cbn [negb]. unfold bind at 1. unfold load_listener at 1. rewrite Hl, Ht.
  rewrite (scan_untriggered _ _ _ Hpre), (scan_hit _ _ _ _ _ He Htr).
  unfold bind at 1. unfold load_listener at 1. rewrite Hl, Hr.
  unfold bind at 1. rewrite for_each_invoke.
  unfold event_reset. run_store. rewrite He. run_store.
  rewrite (reset_opt_triggered _ Htr). run_store.
  by rewrite <- app_assoc.
Qed.

(** With no event triggered the wait predicate is false and the worker
    stays in [cv.wait]. *)
Lemma listen_body_blocked w l L :
  w_listeners w !! l = Some L -> l_running L = true ->
  untriggered w (event2func L) ->
  listen_body l w = Some (Blocked, w).
Proof.
  intros Hl Hr Hu.
  unfold listen_body, wait_predicate, event_has_happened.
  unfold bind at 1 2. unfold load_listener at 1. rewrite Hl, Hr.
  cbn [negb]. unfold bind at 1. unfold load_listener at 1. rewrite Hl.
  by rewrite (scan_none _ _ Hu).
Qed.

(** Woken by [stop()]: nothing is dispatched. *)
Lemma listen_body_stopped w l L :
  w_listeners w !! l = Some L -> l_running L = false ->
  listen_body l w = Some (Skipped, w).
Proof.
  intros Hl Hr.
  unfold listen_body, wait_predicate.
  unfold bind at 1 2. unfold load_listener at 1. rewrite Hl, Hr.
  cbn [negb]. run_store. by rewrite Hl, Hr.
Qed.

(** The loop around the iteration: it goes on after a dispatch, waits
    when nothing is triggered, and returns once the flag is cleared. *)
Lemma listen_after_dispatch n w l L pre e fs post E :
  w_listeners w !! l = Some L -> l_running L = true ->
  event2func L = pre ++ (e, fs) :: post ->
  untriggered w pre ->
  w_events w !! e = Some E -> trigger (ev_state E) = true ->
  listen (Datatypes.S n) l w
  = listen n l
      {| w_events := <[e := {| ev_cv := ev_cv E;
                               ev_state := reset (ev_state E) |}]>
                       (w_events w);
         w_listeners := w_listeners w;
         w_trace := w_trace w ++ map (fun f => Invoke f e) fs
                      ++ [Reset e] |}.
Proof.
  intros Hl Hr Ht Hpre He Htr. cbn [listen].
  unfold bind at 1. unfold load_listener at 1. rewrite Hl, Hr.
  unfold bind at 1.
  by rewrite (listen_body_dispatch _ _ _ _ _ _ _ _ Hl Hr Ht Hpre He Htr).
Qed.

Lemma listen_waits n w l L :
  w_listeners w !! l = Some L -> l_running L = true ->
  untriggered w (event2func L) ->
  listen (Datatypes.S n) l w = Some (Waiting, w).
Proof.
  intros Hl Hr Hu. cbn [listen].
  unfold bind at 1. unfold load_listener at 1. rewrite Hl, Hr.
  unfold bind at 1. by rewrite (listen_body_blocked _ _ _ Hl Hr Hu).
Qed.

Lemma listen_returns n w l L :
  w_listeners w !! l = Some L -> l_running L = false ->
  listen (Datatypes.S n) l w = Some (Returned, w).
Proof.
  intros Hl Hr. cbn [listen].
  unfold bind at 1. unfold load_listener at 1. by rewrite Hl, Hr.
Qed.

(** C1: the iteration of a running worker that services [e], an event
    registered with the callbacks [f1; f2], calls [f1] on [e], then [f2]
    on [e], then [e->reset()], and does nothing else observable.  When
    [reset] on the state of [e] clears [trigger], [e] is not triggered
    in the store the iteration leaves. *)
Theorem listen_body_calls_in_order w l L pre e f1 f2 post E :
  w_listeners w !! l = Some L -> l_running L = true ->
  event2func L = pre ++ (e, [f1; f2]) :: post ->
  untriggered w pre ->
  w_events w !! e = Some E -> trigger (ev_state E) = true ->
  trigger (reset (ev_state E)) = false ->
  exists w' E',
    listen_body l w = Some (Dispatched, w') /\
    w_trace w' = w_trace w ++ [Invoke f1 e; Invoke f2 e; Reset e] /\
    w_events w' !! e = Some E' /\
    trigger (ev_state E') = false.
Proof.
  intros Hl Hr Ht Hpre He Htr Hreset.
  eexists _, _. split; [by eapply listen_body_dispatch|].
  cbn [w_trace w_events map app]. split; [done|].
  split; [apply lookup_insert_eq|]. exact Hreset.
Qed.

(** Either no event of a table is triggered, or there is a first one
    that is. *)
Lemma first_triggered t w :
  Forall (fun p => is_Some (w_events w !! p.1)) t ->
  untriggered w t \/
  exists pre e fs post E,
    t = pre ++ (e, fs) :: post /\ untriggered w pre /\
    w_events w !! e = Some E /\ trigger (ev_state E) = true.
Proof.
  induction 1 as [|[e fs] t [E He] _ IH].
  - left. constructor.
  - cbn [fst] in He. destruct (trigger (ev_state E)) eqn:Ht.
    + right. exists [], e, fs, t, E. repeat split; [constructor|done..].
    + destruct IH as [Hu|(pre & e' & fs' & post & E' & -> & Hu & He' & Ht')].
      * left. constructor; [|exact Hu]. exists E. done.
      * right. exists ((e, fs) :: pre), e', fs', post, E'.
        repeat split; [|done..]. constructor; [|exact Hu]. exists E. done.
Qed.

(** C2: a pass of a running worker through the loop body either stays
    in the wait, when no event of the table is triggered, or services
    exactly one event: the first entry of the table, in iteration order,
    whose event is triggered.  It calls that event's callbacks and
    resets it.  Every other event keeps its state, and the trace of the
    pass holds no callback call and no reset for it, whether it is
    triggered or not. *)
Theorem listen_body_services_first w l L :
  w_listeners w !! l = Some L -> l_running L = true ->
  Forall (fun p => is_Some (w_events w !! p.1)) (event2func L) ->
  (untriggered w (event2func L) /\ listen_body l w = Some (Blocked, w)) \/
  exists pre e fs post E w' tr,
    event2func L = pre ++ (e, fs) :: post /\
    untriggered w pre /\
    w_events w !! e = Some E /\ trigger (ev_state E) = true /\
    listen_body l w = Some (Dispatched, w') /\
    w_trace w' = w_trace w ++ tr /\
    tr = map (fun f => Invoke f e) fs ++ [Reset e] /\
    w_listeners w' = w_listeners w /\
    forall e', e' ≠ e ->
      w_events w' !! e' = w_events w !! e' /\
      (Reset e' ∉ tr) /\ forall f, Invoke f e' ∉ tr.
Proof.
  intros Hl Hr Hlive.
  destruct (first_triggered _ w Hlive)
    as [Hu|(pre & e & fs & post & E & Ht & Hpre & He & Htr)].
  { left. split; [exact Hu|]. by eapply listen_body_blocked. }
  right. exists pre, e, fs, post, E. eexists _, _.
  do 4 (split; [done|]).
  split; [by eapply listen_body_dispatch|].
  cbn [w_trace w_events w_listeners]. do 3 (split; [done|]).
  intros e' Hne. split; [by rewrite lookup_insert_ne|].
  split.
  - rewrite elem_of_app, list_elem_of_fmap, list_elem_of_singleton.
    intros [(f & Heq & _)|Heq]; congruence.
  - intros f.
    rewrite elem_of_app, list_elem_of_fmap, list_elem_of_singleton.
    intros [(f' & Heq & _)|Heq]; congruence.
Qed.

(** ** Stopping and deleting listeners *)

Lemma stop_frame_refl w : stop_frame w w.
Proof.
  split; [done|]. split; [done|]. split; [done|].
  exists []. split; [by rewrite app_nil_r|]. intros l. apply not_elem_of_nil.
Qed.

Lemma stop_frame_trans w1 w2 w3 :
  stop_frame w1 w2 -> stop_frame w2 w3 -> stop_frame w1 w3.
Proof.
  intros (He1 & Hok1 & Hl1 & tr1 & Ht1 & Hd1) (He2 & Hok2 & Hl2 & tr2 & Ht2 & Hd2).
  split; [congruence|]. split; [auto|].
  split; [intros l; by rewrite Hl2, Hl1|].
  exists (tr1 ++ tr2). split.
  - by rewrite Ht2, Ht1, app_assoc.
  - intros l. rewrite elem_of_app. intros [?|?]; [by eapply Hd1|by eapply Hd2].
Qed.

Lemma Listener_stop_run w l L :
  w_listeners w !! l = Some L -> l_running L = listener_thread L ->
  exists w',
    Listener_stop l w = Some (tt, w') /\
    w_events w' = w_events w /\
    w_listeners w'
      = <[l := {| event2func := event2func L; l_running := false;
                  listener_thread := false |}]> (w_listeners w) /\
    exists tr, w_trace w' = w_trace w ++ tr /\ forall l', Delete l' ∉ tr.
Proof.
  intros Hl Hok. destruct L as [t r j]. cbn in Hok. subst j.
  unfold Listener_stop. run_store. rewrite Hl. cbn [l_running].
  destruct r.
  - unfold thread_join, set_running, set_thread. run_store.
    rewrite lookup_insert_eq. cbn [listener_thread]. run_store.
    eexists. split; [done|]. cbn [w_events w_listeners w_trace].
    split; [done|]. split; [by rewrite insert_insert_eq|].
    exists [NotifyOne l; Join l]. split; [by rewrite <- app_assoc|].
    intros l' Hin. apply elem_of_cons in Hin as [?|Hin]; [done|].
    apply list_elem_of_singleton in Hin. done.
  - exists w. split; [done|]. split; [done|].
    split; [by rewrite insert_id|].
    exists []. split; [by rewrite app_nil_r|].
    intros l'. apply not_elem_of_nil.
Qed.

Lemma Listener_stop_frame w l :
  listener_ok w l ->
  exists w', Listener_stop l w = Some (tt, w') /\ stop_frame w w'.
Proof.
  intros (Hnull & L & Hl & Hok).
  destruct (Listener_stop_run w l L Hl Hok) as (w' & Hrun & He & Hls & Htr).
  exists w'. split; [exact Hrun|].
  split; [exact He|]. split; [|split; [|exact Htr]].
  - intros l' (Hnull' & L' & Hl' & Hok'). split; [exact Hnull'|].
    rewrite Hls. destruct (decide (l = l')) as [<-|Hne].
    + rewrite lookup_insert_eq. eauto.
    + rewrite lookup_insert_ne by done. eauto.
  - intros l'. rewrite Hls. destruct (decide (l = l')) as [<-|Hne].
    + rewrite lookup_insert_eq, Hl. split; eauto.
    + by rewrite lookup_insert_ne.
Qed.

Lemma stop_all_frame ls : forall w,
  Forall (listener_ok w) ls ->
  exists w', for_each ls Listener_stop w = Some (tt, w') /\ stop_frame w w'.
Proof.
  induction ls as [|l ls IH]; intros w Hok.
  - exists w. split; [done|apply stop_frame_refl].
  - apply Forall_cons in Hok as [Hl Hok].
    destruct (Listener_stop_frame w l Hl) as (w0 & Hrun0 & Hf0).
    destruct (IH w0) as (w' & Hrun & Hf).
    { eapply Forall_impl; [exact Hok|]. apply Hf0. }
    exists w'. split; [|by eapply stop_frame_trans].
    cbn [for_each]. unfold bind. by rewrite Hrun0.
Qed.

Lemma delete_Listener_run w l :
  listener_ok w l ->
  exists w',
    delete_Listener l w = Some (tt, w') /\
    w_events w' = w_events w /\
    w_listeners w' = delete l (w_listeners w) /\
    exists tr, w_trace w' = w_trace w ++ tr ++ [Delete l] /\
               forall l', Delete l' ∉ tr.
Proof.
  intros (Hnull & L & Hl & Hok).
  destruct (Listener_stop_run w l L Hl Hok)
    as (w0 & Hrun & He & Hls & tr & Htr & Hd).
  unfold delete_Listener. apply N.eqb_neq in Hnull. rewrite Hnull.
  unfold Listener_dtor. unfold bind at 1 2. rewrite Hrun.
  run_store. rewrite Hls, lookup_insert_eq. cbn [listener_thread].
  rewrite Hls, lookup_insert_eq.
  eexists. split; [done|]. cbn [w_events w_listeners w_trace].
  split; [exact He|]. split; [by rewrite delete_insert_eq|].
  exists tr. split; [|exact Hd]. by rewrite Htr, <- app_assoc.
Qed.

Lemma delete_all_run ls : forall w,
  NoDup ls -> Forall (listener_ok w) ls ->
  exists w',
    for_each ls delete_Listener w = Some (tt, w') /\
    w_events w' = w_events w /\
    (forall l, w_listeners w' !! l
               = if decide (l ∈ ls) then None else w_listeners w !! l) /\
    exists tr, w_trace w' = w_trace w ++ tr /\
               forall l, Delete l ∈ tr <-> l ∈ ls.
Proof.
  induction ls as [|l0 ls IH]; intros w Hnd Hok.
  - exists w. split; [done|]. split; [done|]. split.
    + intros l. rewrite decide_False; [done|apply not_elem_of_nil].
    + exists []. split; [by rewrite app_nil_r|].
      intros l. split; intros Hin; by apply not_elem_of_nil in Hin.
  - apply NoDup_cons in Hnd as [Hnotin Hnd].
    apply Forall_cons in Hok as [Hl0 Hok].
    destruct (delete_Listener_run w l0 Hl0)
      as (w0 & Hrun0 & He0 & Hls0 & tr0 & Htr0 & Hd0).
    destruct (IH w0 Hnd) as (w' & Hrun & He & Hls & tr & Htr & Hd).
    { rewrite Forall_forall in Hok. apply Forall_forall. intros l Hin.
      destruct (Hok l Hin) as (Hnull & L & Hl & HL).
      split; [exact Hnull|]. exists L. split; [|exact HL].
      rewrite Hls0, lookup_delete_ne; [done|]. intros ->. done. }
    exists w'. split; [|split; [congruence|split]].
    + cbn [for_each]. unfold bind. by rewrite Hrun0.
    + intros l. rewrite Hls, Hls0.
      destruct (decide (l = l0)) as [->|Hne].
      * rewrite (decide_True (P := l0 ∈ l0 :: ls))
          by (apply elem_of_cons; by left).
        rewrite lookup_delete_eq. by destruct (decide (l0 ∈ ls)).
      * rewrite lookup_delete_ne by done.
        destruct (decide (l ∈ ls)) as [Hin|Hin].
        -- rewrite decide_True; [done|apply elem_of_cons; by right].
        -- rewrite decide_False; [done|].
           intros Hin'. apply elem_of_cons in Hin' as [?|?]; done.
    + exists ((tr0 ++ [Delete l0]) ++ tr). split.
      * rewrite Htr, Htr0. by rewrite <- !app_assoc.
      * intros l. rewrite !elem_of_app, list_elem_of_singleton, Hd, elem_of_cons.
        split.
        -- intros [[Hin|[= ->]]|Hin]; [by apply Hd0 in Hin|by left|by right].
        -- intros [->|Hin]; [left; by right|by right].
Qed.

Lemma EventHandler_stop_run h w :
  Forall (listener_ok w) (listeners h) ->
  exists w1,
    EventHandler_stop h w = Some (set_h_running false h, w1) /\
    stop_frame w w1.
Proof.
  intros Hok. unfold EventHandler_stop.
  destruct (h_running h) eqn:Hr.
  - destruct (stop_all_frame _ w Hok) as (w1 & Hrun & Hf).
    exists w1. split; [|exact Hf].
    cbn [set_h_running listeners]. unfold bind. by rewrite Hrun.
  - exists w. split; [|apply stop_frame_refl].
    destruct h. cbn in Hr. by subst.
Qed.

(** [cleanup()] step by step: the store after [stop()], the one it
    leaves, and the trace between the two. *)
Lemma EventHandler_cleanup_run h w :
  handler_ok h w ->
  exists w1 w' tr,
    EventHandler_stop h w = Some (set_h_running false h, w1) /\
    stop_frame w w1 /\
    EventHandler_cleanup h w
      = Some ({| listeners := []; listener_type := listener_type h;
                 h_running := false |}, w') /\
    w_events w' = w_events w /\
    w_trace w' = w_trace w1 ++ tr /\
    match listener_type h with
    | DYNAMIC_LISTENER =>
        (forall l, w_listeners w' !! l
                   = if decide (l ∈ listeners h) then None
                     else w_listeners w1 !! l) /\
        (forall l, Delete l ∈ tr <-> l ∈ listeners h)
    | STATIC_LISTENER => w' = w1 /\ tr = []
    end.
Proof.
  intros [Hok Hnd].
  destruct (EventHandler_stop_run h w Hok) as (w1 & Hstop & Hf).
  unfold EventHandler_cleanup. unfold bind at 1 2. rewrite Hstop.
  cbn [set_h_running listener_type listeners].
  destruct (listener_type h) eqn:Hty.
  - destruct (delete_all_run (listeners h) w1 (Hnd eq_refl))
      as (w' & Hdel & He & Hls & tr & Htr & Hd).
    { eapply Forall_impl; [exact Hok|]. apply Hf. }
    exists w1, w', tr. split; [done|]. split; [exact Hf|].
    split.
    { unfold bind, ret. rewrite Hdel.
      unfold set_listeners, set_h_running. cbn. by rewrite Hty. }
    split; [rewrite He; apply Hf|]. done.
  - exists w1, w1, []. split; [done|]. split; [exact Hf|].
    split.
    { unfold bind, ret, set_listeners, set_h_running. cbn. by rewrite Hty. }
    split; [apply Hf|]. by rewrite app_nil_r.
Qed.

(** C5: [cleanup()] runs [stop()] first and does the rest on the store
    [stop()] leaves.  A handler of type [DYNAMIC_LISTENER] then deletes
    every listener of its collection, and nothing else; a handler of
    type [STATIC_LISTENER] deletes nothing, its listener objects stay in
    the store.  In both cases the collection ends up empty. *)
Theorem EventHandler_cleanup_spec h w :
  handler_ok h w ->
  exists h1 w1 h' w' tr,
    EventHandler_stop h w = Some (h1, w1) /\
    EventHandler_cleanup h w = Some (h', w') /\
    w_trace w' = w_trace w1 ++ tr /\
    listeners h' = [] /\
    match listener_type h with
    | DYNAMIC_LISTENER =>
        (forall l, l ∈ listeners h -> w_listeners w' !! l = None) /\
        (forall l, Delete l ∈ tr <-> l ∈ listeners h)
    | STATIC_LISTENER =>
        w' = w1 /\
        (forall l, l ∈ listeners h -> is_Some (w_listeners w' !! l)) /\
        (forall l, is_Some (w_listeners w' !! l)
                   <-> is_Some (w_listeners w !! l)) /\
        exists tr0, w_trace w' = w_trace w ++ tr0 /\
                    forall l, Delete l ∉ tr0
    end.
Proof.
  intros Hh.
  destruct (EventHandler_cleanup_run h w Hh)
    as (w1 & w' & tr & Hstop & Hf & Hclean & _ & Htr & Hmode).
  eexists _, w1, _, w', tr.
  split; [exact Hstop|]. split; [exact Hclean|]. split; [exact Htr|].
  split; [done|].
  destruct (listener_type h).
  - destruct Hmode as [Hls Hd]. split; [|exact Hd].
    intros l Hin. rewrite Hls. by rewrite decide_True.
  - destruct Hmode as [-> ->]. split; [done|].
    destruct Hf as (_ & Hok & Hlive & Hno).
    destruct Hh as [Hall _]. rewrite Forall_forall in Hall.
    split; [|split; [exact Hlive|exact Hno]].
    intros l Hin. apply Hlive.
    destruct (Hall l Hin) as (_ & L & -> & _). eauto.
Qed.

End EngineFacts.

(** ** The handler's collection *)

(** C6: [add_listener] on a running handler returns the handler as it
    was, so the collection and its length are unchanged; on a handler
    that is not running it appends the listener and changes nothing
    else.  The function has no failing path. *)
Theorem EventHandler_add_listener_running h1 h2 l :
  h_running h1 = true -> h_running h2 = false ->
  EventHandler_add_listener l h1 = h1 /\
  length (listeners (EventHandler_add_listener l h1)) = length (listeners h1) /\
  listeners (EventHandler_add_listener l h2) = listeners h2 ++ [l] /\
  listener_type (EventHandler_add_listener l h2) = listener_type h2 /\
  h_running (EventHandler_add_listener l h2) = false.
Proof.
  intros R1 R2. unfold EventHandler_add_listener.
  rewrite R1, R2. done.
Qed.

Lemma add_listeners_idle ls : forall h,
  h_running h = false ->
  listeners (add_listeners ls h) = listeners h ++ ls /\
  listener_type (add_listeners ls h) = listener_type h /\
  h_running (add_listeners ls h) = false.
Proof.
  induction ls as [|l ls IH]; intros h Hr; cbn [add_listeners fold_left].
  - by rewrite app_nil_r.
  - destruct (IH (EventHandler_add_listener l h)) as (Hls & Hty & Hrun).
    + unfold EventHandler_add_listener. by rewrite Hr.
    + fold (add_listeners ls (EventHandler_add_listener l h)).
      rewrite Hls, Hty, Hrun.
      unfold EventHandler_add_listener. rewrite Hr.
      cbn [negb set_listeners listeners listener_type].
      by rewrite <- app_assoc.
Qed.

(** C10: the constructor without argument builds the handler that
    [EventHandler(DYNAMIC_LISTENER)] builds.  Once listeners have been
    added to it, its [cleanup()], and its destructor, which is that same
    call, delete every one of them and leave the collection empty. *)
Theorem EventHandler_default_is_dynamic (S : Type) (w : World S) ls :
  NoDup ls -> Forall (listener_ok w) ls ->
  EventHandler_default = EventHandler_ctor DYNAMIC_LISTENER /\
  listener_type (add_listeners ls EventHandler_default) = DYNAMIC_LISTENER /\
  listeners (add_listeners ls EventHandler_default) = ls /\
  exists h' w',
    EventHandler_cleanup (add_listeners ls EventHandler_default) w
      = Some (h', w') /\
    EventHandler_dtor (add_listeners ls EventHandler_default) w
      = Some (h', w') /\
    listeners h' = [] /\
    forall l, l ∈ ls ->
      w_listeners w' !! l = None /\ Delete l ∈ w_trace w'.
Proof.
  intros Hnd Hok.
  destruct (add_listeners_idle ls EventHandler_default eq_refl)
    as (Hls & Hty & Hrun).
  cbn [EventHandler_default EventHandler_ctor listeners listener_type app]
    in Hls, Hty.
  split; [done|]. split; [exact Hty|]. split; [exact Hls|].
  destruct (EventHandler_cleanup_run
              (add_listeners ls EventHandler_default) w)
    as (w1 & w' & tr & _ & _ & Hclean & _ & Htr & Hmode).
  { split; rewrite Hls; done. }
  rewrite Hty in Hmode. destruct Hmode as [Hdel Hd].
  eexists _, w'. split; [exact Hclean|]. split; [exact Hclean|].
  split; [done|]. intros l Hin. rewrite Hls in *. split.
  - rewrite Hdel. by rewrite decide_True.
  - rewrite Htr. apply elem_of_app. right. by apply Hd.
Qed.

(** ** [KeyEvent] *)


(** ** The instance list *)

Section RegistryFacts.

Import Registry.

Lemma inv_init : inv init.
Proof.
  split; [constructor|]. split; [constructor|]. split; [constructor|].
  intros a it. cbn. rewrite lookup_empty. split; [done|].
  intros (n & _ & Hin). by apply not_elem_of_nil in Hin.
Qed.

Lemma inv_listed st a :
  inv st -> a ∈ get_instances st <-> is_Some (objects st !! a).
Proof.
  intros (_ & _ & _ & Hobj). unfold get_instances.
  rewrite list_elem_of_fmap. split.
  - intros ([n b] & -> & Hin). exists (At n). apply Hobj. eauto.
  - intros [it Hit]. apply Hobj in Hit as (n & _ & Hin).
    exists (n, a). done.
Qed.

Lemma Event_ctor_run st a :
  inv st -> objects st !! a = None ->
  exists st',
    Event_ctor a st = Some st' /\ inv st' /\
    get_instances st' = get_instances st ++ [a].
Proof.
  intros Hinv Hfree.
  pose proof (inv_listed st a Hinv) as Hlisted.
  destruct Hinv as (Hlt & Hnd1 & Hnd2 & Hobj).
  unfold Event_ctor, iter_dec, list_end, push_back. cbn [nodes].
  rewrite last_snoc. eexists. split; [done|]. split.
  - unfold inv. cbn [instances objects nodes fresh].
    split; [|split; [|split]].
    + apply Forall_app. split.
      * eapply Forall_impl; [exact Hlt|]. intros p Hp. cbn in *. lia.
      * constructor; [cbn; lia|constructor].
    + rewrite fmap_app. apply NoDup_app. split; [exact Hnd1|]. split.
      * intros n Hn Hn'. apply list_elem_of_singleton in Hn'. subst n.
        apply list_elem_of_fmap in Hn as ([n b] & Heq & Hin).
        rewrite Forall_forall in Hlt. specialize (Hlt _ Hin). cbn in *. lia.
      * apply NoDup_singleton.
    + rewrite fmap_app. apply NoDup_app. split; [exact Hnd2|]. split.
      * intros b Hb Hb'. apply list_elem_of_singleton in Hb'. subst b.
        unfold get_instances in Hlisted.
        apply Hlisted in Hb. rewrite Hfree in Hb. by destruct Hb.
      * apply NoDup_singleton.
    + intros b it. setoid_rewrite elem_of_app.
      setoid_rewrite list_elem_of_singleton.
      destruct (decide (a = b)) as [<-|Hne].
      * rewrite lookup_insert_eq. split.
        -- intros [= <-]. eexists. split; [done|]. by right.
        -- intros (n & -> & [Hin|[= ->]]); [|done].
           assert (is_Some (objects st !! a)) as [? Hs]
             by (eexists; apply Hobj; eauto).
           congruence.
      * rewrite lookup_insert_ne by done. rewrite Hobj. split.
        -- intros (n & -> & Hin). eauto.
        -- intros (n & -> & [Hin|[= _ ->]]); [eauto|done].
  - unfold get_instances. cbn [instances nodes]. by rewrite fmap_app.
Qed.

Lemma unlink_split n a ns :
  NoDup ns.*1 -> (n, a) ∈ ns ->
  exists l1 l2, ns = l1 ++ (n, a) :: l2 /\ unlink n ns = Some (l1 ++ l2).
Proof.
  induction ns as [|[m b] ns IH]; intros Hnd Hin.
  - by apply not_elem_of_nil in Hin.
  - cbn in Hnd. apply NoDup_cons in Hnd as [Hm Hnd].
    apply elem_of_cons in Hin as [[= <- <-]|Hin].
    + exists [], ns. cbn. by rewrite N.eqb_refl.
    + destruct (IH Hnd Hin) as (l1 & l2 & -> & Hun).
      exists ((m, b) :: l1), l2. split; [done|]. cbn [unlink].
      destruct (m =? n) eqn:Heq.
      * apply N.eqb_eq in Heq. subst m. exfalso. apply Hm.
        apply list_elem_of_fmap. exists (n, a). done.
      * by rewrite Hun.
Qed.

Lemma filter_ne_fresh (a : N) (l : list N) :
  a ∉ l -> filter (fun b => b ≠ a) l = l.
Proof.
  induction l as [|b l IH]; [done|].
  intros Hn. apply not_elem_of_cons in Hn as [Hne Hn].
  rewrite filter_cons_True by done. by rewrite IH.
Qed.

Lemma Event_dtor_run st a :
  inv st -> is_Some (objects st !! a) ->
  exists st',
    Event_dtor a st = Some st' /\ inv st' /\
    get_instances st' = filter (fun b => b ≠ a) (get_instances st).
Proof.
  intros (Hlt & Hnd1 & Hnd2 & Hobj) [it Hit].
  pose proof Hit as Hit'. apply Hobj in Hit' as (n & -> & Hin).
  destruct (unlink_split n a _ Hnd1 Hin) as (l1 & l2 & Hns & Hun).
  unfold Event_dtor, erase. rewrite Hit, Hun.
  eexists. split; [done|].
  rewrite Hns in Hlt, Hnd1, Hnd2, Hobj.
  rewrite fmap_app, fmap_cons in Hnd1, Hnd2. cbn [fst snd] in Hnd1, Hnd2.
  apply NoDup_app in Hnd1 as (Hn1 & Hn12 & Hn2).
  apply NoDup_cons in Hn2 as [Hn2a Hn2].
  apply NoDup_app in Hnd2 as (Ha1 & Ha12 & Ha2).
  apply NoDup_cons in Ha2 as [Ha2a Ha2].
  assert (a ∉ l1.*2) as Hal1.
  { intros Hin1. apply (Ha12 _ Hin1). apply elem_of_cons. by left. }
  split.
  - unfold inv. cbn [instances objects nodes fresh].
    split; [|split; [|split]].
    + apply Forall_app in Hlt as [Hlt1 Hlt2].
      apply Forall_cons in Hlt2 as [_ Hlt2]. apply Forall_app. done.
    + rewrite fmap_app. apply NoDup_app. split; [done|]. split; [|done].
      intros m Hm1 Hm2. apply (Hn12 _ Hm1). apply elem_of_cons. by right.
    + rewrite fmap_app. apply NoDup_app. split; [done|]. split; [|done].
      intros b Hb1 Hb2. apply (Ha12 _ Hb1). apply elem_of_cons. by right.
    + intros b it. destruct (decide (a = b)) as [<-|Hne].
      * rewrite lookup_delete_eq. split; [done|].
        intros (m & _ & Hm). exfalso.
        apply elem_of_app in Hm as [Hm|Hm].
        -- apply Hal1. apply list_elem_of_fmap. exists (m, a). done.
        -- apply Ha2a. apply list_elem_of_fmap. exists (m, a). done.
      * rewrite lookup_delete_ne by done. rewrite Hobj.
        split; intros (m & -> & Hm); exists m; (split; [done|]).
        -- rewrite elem_of_app, elem_of_cons in Hm. rewrite elem_of_app.
           destruct Hm as [?|[[= _ ->]|?]]; [by left|done|by right].
        -- rewrite elem_of_app in Hm. rewrite elem_of_app, elem_of_cons.
           destruct Hm as [?|?]; [by left|right; by right].
  - unfold get_instances. cbn [instances nodes]. rewrite Hns.
    rewrite !fmap_app, fmap_cons. cbn [snd].
    rewrite filter_app, filter_cons_False by (intros Hc; by apply Hc).
    rewrite !filter_ne_fresh; done.
Qed.

Lemma run_respects ops : forall st,
  Forall written ops ->
  inv st -> respects ops (get_instances st) ->
  exists st',
    run ops st = Some st' /\ inv st' /\
    get_instances st' = alive ops (get_instances st).
Proof.
  induction ops as [|o ops IH]; intros st Hw Hinv Hok.
  { exists st. done. }
  apply Forall_cons in Hw as [Ho Hw].
  destruct o as [a|a|a b|a b]; [| |destruct Ho..].
  - destruct Hok as [Hfree Hok].
    assert (objects st !! a = None) as Hnone.
    { destruct (objects st !! a) eqn:Hobj; [|done].
      exfalso. apply Hfree. apply inv_listed; eauto. }
    destruct (Event_ctor_run st a Hinv Hnone) as (st0 & Hc & Hinv0 & Hl0).
    destruct (IH st0 Hw Hinv0) as (st' & Hrun & Hinv' & Hl');
      [by rewrite Hl0|].
    exists st'. cbn [run step alive]. rewrite Hnone, Hc, Hrun, Hl', Hl0. done.
  - destruct Hok as [Hlive Hok].
    apply (inv_listed st a Hinv) in Hlive.
    destruct (Event_dtor_run st a Hinv Hlive) as (st0 & Hd & Hinv0 & Hl0).
    destruct (IH st0 Hw Hinv0) as (st' & Hrun & Hinv' & Hl');
      [by rewrite Hl0|].
    exists st'. cbn [run step alive]. rewrite Hd, Hrun, Hl', Hl0. done.
Qed.

(** X25: for objects that are only built by [Event(void)] and destroyed,
    never copied or assigned, and whatever the order of constructions
    and destructions that respects lifetimes, the constructor and
    destructor bodies all run without undefined behaviour, and
    [instances] lists exactly the objects that have been constructed and
    not yet destroyed, each once, in the order of their construction. *)
Theorem registry_mirrors_lifetime ops :
  Forall written ops ->
  respects ops [] ->
  exists st,
    run ops init = Some st /\
    get_instances st = alive ops [] /\
    NoDup (get_instances st) /\
    forall a, a ∈ get_instances st <-> is_Some (objects st !! a).
Proof.
  intros Hw Hok.
  destruct (run_respects ops init Hw inv_init Hok)
    as (st & Hrun & Hinv & Hl).
  exists st. split; [exact Hrun|]. split; [exact Hl|]. split.
  - by destruct Hinv as (_ & _ & Hnd & _).
  - intros a. by apply inv_listed.
Qed.

(** C8: the list does not mirror lifetimes once an object is copied.
    The copy constructor the compiler generates for [Event<T>] copies
    [instance_iter] and does not touch [instances]: a copy of object 1
    at address 2 is alive and in no entry, although the sequence
    respects lifetimes and [alive] has it.  Destroying the copy erases
    the node of object 1, which is then alive and missing from the list;
    destroying object 1 after that erases through an iterator to a node
    that is gone, which is undefined.  After object 1 has been assigned
    to object 3, destroying object 3 erases the node of object 1 and
    leaves its own: the list then holds the destroyed object and misses
    the live one. *)
Theorem Event_copy_not_listed :
  respects copy_ops [] /\ alive copy_ops [] = [1; 2] /\
  (exists st,
     run copy_ops init = Some st /\
     is_Some (objects st !! 2) /\ (2 ∉ get_instances st) /\
     get_instances st ≠ alive copy_ops []) /\
  (exists st,
     run (copy_ops ++ [Destruct 2]) init = Some st /\
     is_Some (objects st !! 1) /\ 1 ∉ get_instances st) /\
  run (copy_ops ++ [Destruct 2; Destruct 1]) init = None /\
  (exists st,
     run assign_ops init = Some st /\
     is_Some (objects st !! 1) /\ (1 ∉ get_instances st) /\
     objects st !! 3 = None /\ 3 ∈ get_instances st).
Proof.
  split.
  { cbn. split; [apply not_elem_of_nil|]. split.
    - intros Hin. apply list_elem_of_singleton in Hin. discriminate.
    - split; [|done]. apply list_elem_of_singleton. done. }
  split; [reflexivity|]. split.
  { eexists. split; [reflexivity|]. cbn. split; [eauto|]. split.
    - intros Hin. apply list_elem_of_singleton in Hin. discriminate.
    - discriminate. }
  split.
  { eexists. split; [reflexivity|]. cbn. split; [eauto|].
    apply not_elem_of_nil. }
  split; [reflexivity|].
  eexists. split; [reflexivity|]. cbn. split; [eauto|]. split.
  - intros Hin. apply list_elem_of_singleton in Hin. discriminate.
  - split; [reflexivity|]. apply list_elem_of_singleton. done.
Qed.

End RegistryFacts.

(** * The theorems at work on the small configuration *)

Lemma demo_listeners_ok : Forall (listener_ok demo_world) [1; 2].
Proof.
  repeat constructor; try discriminate; eexists; split; reflexivity.
Defined.

Lemma demo_untriggered : untriggered demo_world [(10, [100])].
Proof.
  repeat constructor. eexists. split; reflexivity.
Defined.

Lemma listen_body_calls_in_order_witness :
  exists w' E',
    listen_body 1 demo_world = Some (Dispatched, w') /\
    w_trace w' = w_trace demo_world ++ [Invoke 101 20; Invoke 102 20; Reset 20] /\
    w_events w' !! 20 = Some E' /\
    trigger (ev_state E') = false.
Proof.
  apply (listen_body_calls_in_order demo_world 1 demo_listener1
           [(10, [100])] 20 101 102 [(30, [103])] (demo_event ["a"%char]));
    [reflexivity|reflexivity|reflexivity|exact demo_untriggered
    |reflexivity|reflexivity|reflexivity].
Defined.

Lemma demo_events_live :
  Forall (fun p : N * list N => is_Some (w_events demo_world !! p.1))
    (event2func demo_listener1).
Proof.
  repeat constructor; eexists; reflexivity.
Defined.

Lemma listen_body_services_first_witness :
  (untriggered demo_world (event2func demo_listener1) /\
   listen_body 1 demo_world = Some (Blocked, demo_world)) \/
  exists pre e fs post E w' tr,
    event2func demo_listener1 = pre ++ (e, fs) :: post /\
    untriggered demo_world pre /\
    w_events demo_world !! e = Some E /\ trigger (ev_state E) = true /\
    listen_body 1 demo_world = Some (Dispatched, w') /\
    w_trace w' = w_trace demo_world ++ tr /\
    tr = map (fun f => Invoke f e) fs ++ [Reset e] /\
    w_listeners w' = w_listeners demo_world /\
    forall e', e' ≠ e ->
      w_events w' !! e' = w_events demo_world !! e' /\
      (Reset e' ∉ tr) /\ forall f, Invoke f e' ∉ tr.
Proof.
  apply (listen_body_services_first demo_world 1 demo_listener1);
    [reflexivity|reflexivity|exact demo_events_live].
Defined.

Lemma demo_NoDup : NoDup [1; 2].
Proof.
  apply NoDup_cons. split; [|apply NoDup_singleton].
  intros Hin. apply list_elem_of_singleton in Hin. discriminate.
Defined.

Lemma demo_live : Forall (fun r : N * N => is_Some (w_listeners demo_world !! r.1))
                    ([(1, 200)] ++ [(2, 201)]).
Proof.
  repeat constructor; eexists; reflexivity.
Defined.

Lemma register_event_rebinds_cv_witness :
  exists w1 E1 w2,
    register_with 20 ([(1, 200)] ++ [(2, 201)]) demo_world = Some (tt, w1) /\
    w_events w1 !! 20 = Some E1 /\ ev_cv E1 = Some 2 /\
    internal 20 w1 = Some (tt, w2) /\
    w_trace w2 = w_trace w1 ++ [NotifyOne 2] /\
    w_events w2 = w_events w1 /\ w_listeners w2 = w_listeners w1.
Proof.
  apply (register_event_rebinds_cv demo_world 20 (demo_event ["a"%char])
           [(1, 200)] 2 201); [reflexivity|exact demo_live].
Defined.

Lemma register_event_accumulates_witness :
  exists w1 w2 L2,
    register_event 1 20 104 demo_world = Some (tt, w1) /\
    register_event 1 20 105 w1 = Some (tt, w2) /\
    w_listeners w2 !! 1 = Some L2 /\
    map_find 20 (event2func L2) = Some ([101; 102] ++ [104; 105]) /\
    (forall e', e' ≠ 20 ->
       map_find e' (event2func L2) = map_find e' (event2func demo_listener1)) /\
    (forall l', l' ≠ 1 ->
       w_listeners w2 !! l' = w_listeners demo_world !! l').
Proof.
  apply (register_event_accumulates demo_world 1 demo_listener1 20
           (demo_event ["a"%char]) 104 105); reflexivity.
Defined.

Lemma demo_handler_ok lt : handler_ok (demo_handler lt) demo_world.
Proof.
  split; [exact demo_listeners_ok|]. intros _. exact demo_NoDup.
Defined.

Lemma EventHandler_cleanup_spec_witness :
  (exists h1 w1 h' w' tr,
     EventHandler_stop (demo_handler DYNAMIC_LISTENER) demo_world
       = Some (h1, w1) /\
     EventHandler_cleanup (demo_handler DYNAMIC_LISTENER) demo_world
       = Some (h', w') /\
     w_trace w' = w_trace w1 ++ tr /\
     listeners h' = [] /\
     (forall l, l ∈ [1; 2] -> w_listeners w' !! l = None) /\
     (forall l, Delete l ∈ tr <-> l ∈ [1; 2])) /\
  (exists h1 w1 h' w' tr,
     EventHandler_stop (demo_handler STATIC_LISTENER) demo_world
       = Some (h1, w1) /\
     EventHandler_cleanup (demo_handler STATIC_LISTENER) demo_world
       = Some (h', w') /\
     w_trace w' = w_trace w1 ++ tr /\
     listeners h' = [] /\
     w' = w1 /\
     (forall l, l ∈ [1; 2] -> is_Some (w_listeners w' !! l)) /\
     (forall l, is_Some (w_listeners w' !! l)
                <-> is_Some (w_listeners demo_world !! l)) /\
     exists tr0, w_trace w' = w_trace demo_world ++ tr0 /\
                 forall l, Delete l ∉ tr0).
Proof.
  split.
  - exact (EventHandler_cleanup_spec (demo_handler DYNAMIC_LISTENER)
             demo_world (demo_handler_ok DYNAMIC_LISTENER)).
  - exact (EventHandler_cleanup_spec (demo_handler STATIC_LISTENER)
             demo_world (demo_handler_ok STATIC_LISTENER)).
Defined.

Lemma EventHandler_add_listener_running_witness :
  EventHandler_add_listener 3 (demo_handler DYNAMIC_LISTENER)
    = demo_handler DYNAMIC_LISTENER /\
  length (listeners (EventHandler_add_listener 3 (demo_handler DYNAMIC_LISTENER)))
    = length (listeners (demo_handler DYNAMIC_LISTENER)) /\
  listeners (EventHandler_add_listener 3 (EventHandler_ctor STATIC_LISTENER))
    = listeners (EventHandler_ctor STATIC_LISTENER) ++ [3] /\
  listener_type (EventHandler_add_listener 3 (EventHandler_ctor STATIC_LISTENER))
    = listener_type (EventHandler_ctor STATIC_LISTENER) /\
  h_running (EventHandler_add_listener 3 (EventHandler_ctor STATIC_LISTENER))
    = false.
Proof.
  apply (EventHandler_add_listener_running (demo_handler DYNAMIC_LISTENER)
           (EventHandler_ctor STATIC_LISTENER) 3); reflexivity.
Defined.

Lemma Listener_start_stop_idempotent_witness :
  Listener_start 1 demo_world = Some (tt, demo_world) /\
  Listener_stop 2 demo_world = Some (tt, demo_world).
Proof.
  split.
  - apply (Listener_start_stop_idempotent demo_world 1 demo_listener1);
      reflexivity.
  - apply (Listener_start_stop_idempotent demo_world 2 demo_listener2);
      reflexivity.
Defined.

Lemma demo_ops_respects : Registry.respects demo_ops [].
Proof.
  cbn. repeat split.
  - apply not_elem_of_nil.
  - intros Hin. apply list_elem_of_singleton in Hin. discriminate.
  - apply elem_of_cons. by left.
  - intros Hin. apply list_elem_of_singleton in Hin. discriminate.
Defined.

Lemma demo_ops_written : Forall Registry.written demo_ops.
Proof.
  repeat constructor.
Defined.

Lemma registry_mirrors_lifetime_witness :
  exists st,
    Registry.run demo_ops Registry.init = Some st /\
    Registry.get_instances st = [2; 3] /\
    NoDup (Registry.get_instances st) /\
    forall a, a ∈ Registry.get_instances st
              <-> is_Some (Registry.objects st !! a).
Proof.
  exact (registry_mirrors_lifetime demo_ops demo_ops_written
           demo_ops_respects).
Defined.


Lemma EventHandler_default_is_dynamic_witness :
  EventHandler_default = EventHandler_ctor DYNAMIC_LISTENER /\
  listener_type (add_listeners [1; 2] EventHandler_default) = DYNAMIC_LISTENER /\
  listeners (add_listeners [1; 2] EventHandler_default) = [1; 2] /\
  exists h' w',
    EventHandler_cleanup (add_listeners [1; 2] EventHandler_default) demo_world
      = Some (h', w') /\
    EventHandler_dtor (add_listeners [1; 2] EventHandler_default) demo_world
      = Some (h', w') /\
    listeners h' = [] /\
    forall l, l ∈ [1; 2] ->
      w_listeners w' !! l = None /\ Delete l ∈ w_trace w'.
Proof.
  exact (EventHandler_default_is_dynamic (list ascii) demo_world [1; 2]
           demo_NoDup demo_listeners_ok).
Defined.

(** What the configuration computes to. *)

Example demo_pass :
  (fun r => (r.1, w_trace r.2)) <$> listen_body 1 demo_world
  = Some (Dispatched, [Invoke 101 20; Invoke 102 20; Reset 20]).
Proof. vm_compute. reflexivity. Qed.

Example demo_two_passes :
  (fun r => (r.1, w_trace r.2)) <$> listen 2 1 demo_world
  = Some (Going, [Invoke 101 20; Invoke 102 20; Reset 20;
                  Invoke 103 30; Reset 30]).
Proof. vm_compute. reflexivity. Qed.

Example demo_third_pass_repeats :
  (fun r => (r.1, w_trace r.2)) <$> listen 3 1 demo_world
  = Some (Going, [Invoke 101 20; Invoke 102 20; Reset 20;
                  Invoke 103 30; Reset 30; Invoke 103 30; Reset 30]).
Proof. vm_compute. reflexivity. Qed.

Example demo_cleanup_dynamic :
  (fun r => (listeners r.1, w_trace r.2, w_listeners r.2 !! 1,
             w_listeners r.2 !! 2))
    <$> EventHandler_cleanup (demo_handler DYNAMIC_LISTENER) demo_world
  = Some ([], [NotifyOne 1; Join 1; Delete 1; Delete 2], None, None).
Proof. vm_compute. reflexivity. Qed.

Example demo_cleanup_static :
  (fun r => (listeners r.1, w_trace r.2, l_running <$> w_listeners r.2 !! 1,
             l_running <$> w_listeners r.2 !! 2))
    <$> EventHandler_cleanup (demo_handler STATIC_LISTENER) demo_world
  = Some ([], [NotifyOne 1; Join 1], Some false, Some false).
Proof. vm_compute. reflexivity. Qed.

Example demo_registry :
  Registry.get_instances <$> Registry.run demo_ops Registry.init
  = Some [2; 3].
Proof. vm_compute. reflexivity. Qed.

Example demo_double_delete :
  EventHandler_cleanup
    {| listeners := [2; 2]; listener_type := DYNAMIC_LISTENER;
       h_running := false |} demo_world
  = None.
Proof. vm_compute. reflexivity. Qed.

(** * The rest of the listener and of the handler *)

Section LifecycleFacts.

Context {S : Type} `{EventBase S}.

Implicit Types (w : World S) (L : Listener).

(** ** [Listener::start] and [Listener::stop] *)

Lemma Listener_start_exact w l L :
  w_listeners w !! l = Some L -> l_running L = listener_thread L ->
  Listener_start l w
  = Some (tt, {| w_events := w_events w;
                 w_listeners := <[l := started L]> (w_listeners w);
                 w_trace := w_trace w ++ start_trace w l |}).
Proof.
  intros Hl Hok. destruct L as [t r j]. cbn in Hok. subst j.
  unfold Listener_start, start_trace, idles. run_store.
  rewrite Hl. cbn [l_running].
  destruct r; cbn [negb].
  - rewrite app_nil_r. unfold started. cbn [event2func].
    rewrite insert_id by done. by destruct w.
  - unfold thread_spawn, set_running, set_thread. run_store.
    rewrite lookup_insert_eq. cbn [listener_thread event2func l_running].
    run_store. by rewrite insert_insert_eq.
Qed.

Lemma Listener_stop_exact w l L :
  w_listeners w !! l = Some L -> l_running L = listener_thread L ->
  Listener_stop l w
  = Some (tt, {| w_events := w_events w;
                 w_listeners := <[l := stopped L]> (w_listeners w);
                 w_trace := w_trace w ++ stop_trace w l |}).
Proof.
  intros Hl Hok. destruct L as [t r j]. cbn in Hok. subst j.
  unfold Listener_stop, stop_trace, runs. run_store.
  rewrite Hl. cbn [l_running].
  destruct r.
  - unfold thread_join, set_running, set_thread. run_store.
    rewrite lookup_insert_eq. cbn [listener_thread event2func l_running].
    run_store. rewrite insert_insert_eq. by rewrite <- app_assoc.
  - rewrite app_nil_r. unfold stopped. cbn [event2func].
    rewrite insert_id by done. by destruct w.
Qed.

(** X1: whatever the order of the calls, [start()] and [stop()] on a
    usable listener return normally: the thread handle is never assigned
    while joinable nor joined while not.  The listener stays usable, its
    table is the one it had, its flag is that of the last call, and no
    event and no other listener changes. *)
Theorem start_stop_calls_safe w l calls :
  listener_ok w l ->
  exists w' L L',
    start_stop_calls l calls w = Some (tt, w') /\
    listener_ok w' l /\
    w_listeners w !! l = Some L /\ w_listeners w' !! l = Some L' /\
    event2func L' = event2func L /\
    l_running L' = default (l_running L) (last calls) /\
    w_events w' = w_events w /\
    forall l', l' ≠ l -> w_listeners w' !! l' = w_listeners w !! l'.
Proof.
  revert w. induction calls as [|c calls IH]; intros w Hok.
  - destruct Hok as (Hn & L & Hl & HL) eqn:E.
    exists w, L, L. repeat split; try done. exists L. done.
  - destruct Hok as (Hn & L & Hl & HL).
    set (L0 := if c then started L else stopped L).
    assert (exists w0,
      (if c then Listener_start l else Listener_stop l) w = Some (tt, w0) /\
      w_events w0 = w_events w /\
      w_listeners w0 = <[l := L0]> (w_listeners w)) as (w0 & Hc & He0 & Hl0).
    { destruct c; eexists; (split;
        [by (apply Listener_start_exact || apply Listener_stop_exact)|done]). }
    destruct (IH w0) as (w' & L1 & L' & Hrun & Hok' & Hl1 & Hl' & Ht & Hr & He & Ho).
    { split; [done|]. exists L0. rewrite Hl0, lookup_insert_eq.
      split; [done|]. subst L0. by destruct c. }
    rewrite Hl0, lookup_insert_eq in Hl1. injection Hl1 as <-.
    exists w', L, L'. split.
    { unfold start_stop_calls in *. cbn [for_each]. unfold bind.
      by rewrite Hc. }
    split; [done|]. split; [done|]. split; [done|].
    split; [rewrite Ht; subst L0; by destruct c|].
    split.
    { rewrite Hr, last_cons. subst L0.
      destruct (last calls); [done|]. by destruct c. }
    split; [congruence|].
    intros l' Hne. rewrite Ho by done. rewrite Hl0.
    by rewrite lookup_insert_ne.
Qed.

(** X2: [start()] then [stop()] on an idle listener spawns the worker,
    notifies the condition variable once and joins, in that order, and
    leaves every listener, this one included, as it was. *)
Theorem Listener_start_stop_round_trip w l L :
  w_listeners w !! l = Some L ->
  l_running L = false -> listener_thread L = false ->
  exists w1 w2,
    Listener_start l w = Some (tt, w1) /\
    w_listeners w1 !! l = Some (started L) /\
    Listener_stop l w1 = Some (tt, w2) /\
    w_listeners w2 = w_listeners w /\
    w_events w2 = w_events w /\
    w_trace w2 = w_trace w ++ [Spawn l; NotifyOne l; Join l].
Proof.
  intros Hl Hr Hj.
  eexists _, _. split.
  { apply (Listener_start_exact w l L); [done|congruence]. }
  cbn [w_listeners]. split; [apply lookup_insert_eq|].
  split.
  { apply (Listener_stop_exact _ l (started L)); cbn [w_listeners];
      [apply lookup_insert_eq|done]. }
  cbn [w_listeners w_events w_trace]. split.
  { rewrite insert_insert_eq. apply insert_id.
    rewrite Hl. destruct L. cbn in *. by subst. }
  split; [done|].
  unfold start_trace, stop_trace, idles, runs. cbn [w_listeners].
  rewrite Hl, Hr, lookup_insert_eq. cbn. by rewrite <- app_assoc.
Qed.

(** X3: once [stop()] has returned, a pass of the worker dispatches
    nothing, whatever events are triggered, and [listen] returns. *)
Theorem worker_returns_after_stop w l L n :
  w_listeners w !! l = Some L ->
  l_running L = true -> listener_thread L = true ->
  exists w1,
    Listener_stop l w = Some (tt, w1) /\
    w_trace w1 = w_trace w ++ [NotifyOne l; Join l] /\
    listen_body l w1 = Some (Skipped, w1) /\
    listen (Datatypes.S n) l w1 = Some (Returned, w1).
Proof.
  intros Hl Hr Hj.
  eexists. split.
  { apply (Listener_stop_exact w l L); [done|congruence]. }
  split.
  { cbn [w_trace]. unfold stop_trace, runs. by rewrite Hl, Hr. }
  split.
  - apply listen_body_stopped with (stopped L); [|done].
    cbn [w_listeners]. apply lookup_insert_eq.
  - apply listen_returns with (stopped L); [|done].
    cbn [w_listeners]. apply lookup_insert_eq.
Qed.

(** X4: [delete] on a null pointer does nothing.  On a usable listener
    it runs the destructor first, which stops the worker when it runs,
    and frees the object: the trace gets the notification and the join
    of a running listener, then the deletion; the object leaves the
    store, and nothing else changes. *)
Theorem delete_Listener_stops_first w :
  delete_Listener nullptr w = Some (tt, w) /\
  forall l L,
    l ≠ nullptr ->
    w_listeners w !! l = Some L -> l_running L = listener_thread L ->
    delete_Listener l w
    = Some (tt, {| w_events := w_events w;
                   w_listeners := delete l (w_listeners w);
                   w_trace := w_trace w ++ stop_trace w l ++ [Delete l] |}).
Proof.
  split; [done|]. intros l L Hn Hl Hok.
  unfold delete_Listener. apply N.eqb_neq in Hn. rewrite Hn.
  unfold Listener_dtor. unfold bind at 1 2.
  rewrite (Listener_stop_exact _ _ _ Hl Hok).
  run_store. rewrite lookup_insert_eq. cbn [stopped listener_thread].
  run_store. rewrite lookup_insert_eq, delete_insert_eq. run_store.
  by rewrite <- app_assoc.
Qed.

End LifecycleFacts.

(** ** [EventHandler::start], [stop] and [cleanup] together *)



Lemma flat_map_same {A B} (f g : A -> list B) (l : list A) :
  (forall x, x ∈ l -> f x = g x) -> flat_map f l = flat_map g l.
Proof.
  induction l as [|x l IH]; intros Hfg; [done|]. cbn [flat_map].
  rewrite Hfg by (apply elem_of_cons; by left).
  rewrite IH; [done|]. intros y Hy. apply Hfg. apply elem_of_cons. by right.
Qed.

Section HandlerFacts.

Context {S : Type}.

Implicit Types (w : World S) (L : Listener) (h : EventHandler).






Lemma EventHandler_stop_result h w h1 w1 :
  EventHandler_stop h w = Some (h1, w1) -> h1 = set_h_running false h.
Proof.
  unfold EventHandler_stop. destruct (h_running h) eqn:Hr.
  - unfold bind, ret.
    destruct (for_each _ _ w) as [[[] w0]|]; [|done]. by intros [= <- _].
  - unfold ret. intros [= <- _]. destruct h. cbn in Hr. by subst.
Qed.

(** X7: [stop()] followed by [cleanup()], as [main] calls them, does
    what [cleanup()] alone does: the same result, the same store and the
    same trace, and it fails when and only when [cleanup()] does. *)
Theorem stop_then_cleanup_is_cleanup h w :
  stop_then_cleanup h w = EventHandler_cleanup h w.
Proof.
  unfold stop_then_cleanup. unfold bind at 1.
  destruct (EventHandler_stop h w) as [[h1 w1]|] eqn:Hstop.
  - pose proof (EventHandler_stop_result _ _ _ _ Hstop) as ->.
    unfold EventHandler_cleanup, bind. rewrite Hstop.
    unfold EventHandler_stop. cbn [set_h_running h_running]. done.
  - unfold EventHandler_cleanup, bind. by rewrite Hstop.
Qed.

(** X8: a second [cleanup()], and so the destructor of a handler that
    was cleaned up by hand, does nothing: the collection is empty, so
    nothing is stopped or deleted again. *)
Theorem EventHandler_cleanup_twice h w h' w' :
  EventHandler_cleanup h w = Some (h', w') ->
  listeners h' = [] /\ h_running h' = false /\
  listener_type h' = listener_type h /\
  EventHandler_cleanup h' w' = Some (h', w') /\
  EventHandler_dtor h' w' = Some (h', w').
Proof.
  intros Hc.
  assert (h' = {| listeners := []; listener_type := listener_type h;
                  h_running := false |}) as ->.
  { revert Hc. unfold EventHandler_cleanup. unfold bind at 1 2.
    destruct (EventHandler_stop h w) as [[h1 w1]|] eqn:Hstop; [|done].
    apply EventHandler_stop_result in Hstop. subst h1.
    cbn [set_h_running listener_type listeners].
    destruct (listener_type h) eqn:Hty.
    - unfold bind, ret.
      destruct (for_each _ _ w1) as [[[] w2]|]; [|done].
      intros [= <- _]. unfold set_listeners, set_h_running. cbn.
      by rewrite Hty.
    - unfold ret. intros [= <- _]. unfold set_listeners, set_h_running.
      cbn. by rewrite Hty. }
  do 3 (split; [done|]).
  assert (EventHandler_cleanup
            {| listeners := []; listener_type := listener_type h;
               h_running := false |} w'
          = Some ({| listeners := []; listener_type := listener_type h;
                     h_running := false |}, w')) as Hagain.
  { unfold EventHandler_cleanup, EventHandler_stop, bind, ret.
    cbn [h_running listener_type listeners].
    by destruct (listener_type h). }
  split; [exact Hagain|exact Hagain].
Qed.

End HandlerFacts.

(** ** Tables as [register_event] builds them *)

Lemma ascending_tail p t : ascending (p :: t) -> ascending t.
Proof.
  destruct p as [k v]. destruct t as [|[k' v'] t]; [done|].
  cbn. by intros [_ ?].
Qed.

Lemma ascending_lt k v t :
  ascending ((k, v) :: t) -> Forall (fun p => k < p.1) t.
Proof.
  revert k v. induction t as [|[k1 v1] t IH]; intros k v Ha; [constructor|].
  destruct Ha as [Hlt Ha]. constructor; [done|].
  eapply Forall_impl; [exact (IH k1 v1 Ha)|].
  intros p Hp. cbn in *. lia.
Qed.

Lemma ascending_app_r pre t : ascending (pre ++ t) -> ascending t.
Proof.
  induction pre as [|p pre IH]; [done|].
  intros Ha. apply IH. by eapply ascending_tail.
Qed.

Lemma ascending_NoDup t : ascending t -> NoDup t.*1.
Proof.
  induction t as [|[k v] t IH]; intros Ha; [constructor|].
  cbn [fmap list_fmap fst]. apply NoDup_cons. split.
  - intros Hin. apply list_elem_of_fmap in Hin as ([k' v'] & Heq & Hin).
    cbn in Heq. subst k'.
    pose proof (ascending_lt _ _ _ Ha) as Hlt.
    rewrite Forall_forall in Hlt. specialize (Hlt _ Hin). cbn in Hlt. lia.
  - apply IH. by eapply ascending_tail.
Qed.

Lemma table_ok_push_back k f t :
  table_ok t -> table_ok (map_push_back k f t).
Proof.
  intros [Ha Hne]. split; [by apply ascending_push_back|].
  clear Ha. induction Hne as [|[k' v] t Hv Hne IH]; cbn.
  - constructor; [done|constructor].
  - destruct (k <? k'); [by repeat constructor|].
    destruct (k =? k').
    + constructor; [|done]. cbn in *. by destruct v.
    + by constructor.
Qed.

Section TableFacts.

Context {S : Type} `{EventBase S}.

Implicit Types (w : World S) (L : Listener) (E : EventObj S).

(** X9: registrations, in any number and order, succeed when their
    listeners and events are alive, and leave every table with its keys
    in ascending order of address, each key once, and at least one
    callback under every key.  No listener appears or disappears. *)
Theorem register_all_keeps_tables regs : forall w,
  (forall l L, w_listeners w !! l = Some L -> table_ok (event2func L)) ->
  Forall (fun r => is_Some (w_listeners w !! r.1.1) /\
                   is_Some (w_events w !! r.1.2)) regs ->
  exists w',
    register_all regs w = Some (tt, w') /\
    (forall l L, w_listeners w' !! l = Some L ->
       table_ok (event2func L) /\ NoDup (event2func L).*1) /\
    forall l, is_Some (w_listeners w' !! l) <-> is_Some (w_listeners w !! l).
Proof.
  induction regs as [|[[l e] f] regs IH]; intros w Hinv Hlive.
  - exists w. split; [done|]. split; [|done].
    intros l L Hl. split; [by eapply Hinv|].
    apply ascending_NoDup. by eapply Hinv.
  - apply Forall_cons in Hlive as [[[L Hl] [E He]] Hlive]. cbn [fst snd] in *.
    pose proof (register_event_run w l e f L E Hl He) as Hreg.
    match type of Hreg with _ = Some (_, ?w0) =>
      destruct (IH w0) as (w' & Hrun & Hinv' & Hdom) end.
    + cbn [w_listeners]. intros l' L' Hl'.
      destruct (decide (l = l')) as [<-|Hne].
      * rewrite lookup_insert_eq in Hl'. injection Hl' as <-.
        cbn [set_event2func event2func]. apply table_ok_push_back.
        by eapply Hinv.
      * rewrite lookup_insert_ne in Hl' by done. by eapply Hinv.
    + eapply Forall_impl; [exact Hlive|].
      intros [[l' e'] f'] [Hl' He']. cbn [fst snd w_listeners w_events] in *.
      split.
      * destruct (decide (l = l')) as [<-|Hne];
          [rewrite lookup_insert_eq; eauto|by rewrite lookup_insert_ne].
      * destruct (decide (e = e')) as [<-|Hne];
          [rewrite lookup_insert_eq; eauto|by rewrite lookup_insert_ne].
    + exists w'. split.
      { unfold register_all in *. cbn [for_each]. unfold bind.
        cbn [fst snd]. by rewrite Hreg. }
      split; [exact Hinv'|].
      intros l'. rewrite Hdom. cbn [w_listeners].
      destruct (decide (l = l')) as [<-|Hne].
      * rewrite lookup_insert_eq, Hl. split; eauto.
      * by rewrite lookup_insert_ne.
Qed.

Lemma untriggered_not_triggered w t p :
  untriggered w t -> p ∈ t -> is_triggered w p.1 = false.
Proof.
  intros Hu Hin. unfold untriggered in Hu. rewrite Forall_forall in Hu.
  destruct (Hu p Hin) as (E & He & Ht). unfold is_triggered. by rewrite He.
Qed.

Lemma untriggered_no_entries w t :
  untriggered w t -> triggered_entries w t = [].
Proof.
  unfold triggered_entries.
  induction 1 as [|p t (E & He & Ht) _ IH]; [done|].
  rewrite filter_cons_False; [done|].
  unfold is_triggered. rewrite He, Ht. done.
Qed.

(** X10: [event_has_happened] changes nothing.  On a table whose events
    are alive it answers [false], with both results null, when no event
    is triggered; otherwise it answers [true] with the first triggered
    event in table order and that event's callbacks, of which a table
    built by [register_event] always has at least one. *)
Theorem event_has_happened_first w l L :
  w_listeners w !! l = Some L ->
  table_ok (event2func L) ->
  Forall (fun p => is_Some (w_events w !! p.1)) (event2func L) ->
  (untriggered w (event2func L) /\
   event_has_happened l w = Some ((false, nullptr, None), w)) \/
  exists pre e fs post,
    event2func L = pre ++ (e, fs) :: post /\
    untriggered w pre /\ is_triggered w e = true /\ fs ≠ [] /\
    event_has_happened l w = Some ((true, e, Some fs), w).
Proof.
  intros Hl [_ Hne] Hlive.
  unfold event_has_happened. unfold bind, load_listener. rewrite Hl.
  destruct (first_triggered _ w Hlive)
    as [Hu|(pre & e & fs & post & E & Ht & Hpre & He & Htr)].
  - left. split; [done|]. by apply scan_none.
  - right. exists pre, e, fs, post. split; [done|]. split; [done|].
    split; [unfold is_triggered; by rewrite He|]. split.
    + rewrite Ht in Hne. apply Forall_app in Hne as [_ Hne].
      by apply Forall_cons in Hne as [? _].
    + rewrite Ht, (scan_untriggered _ _ _ Hpre).
      by eapply scan_hit.
Qed.

(** X11: among the registered events that are triggered, a pass
    services the one at the lowest address, whatever the order in which
    the events were registered or became triggered. *)
Theorem listen_body_lowest_address w l L e' :
  w_listeners w !! l = Some L -> l_running L = true ->
  ascending (event2func L) ->
  Forall (fun p => is_Some (w_events w !! p.1)) (event2func L) ->
  e' ∈ (event2func L).*1 -> is_triggered w e' = true ->
  exists e fs w',
    (e, fs) ∈ event2func L /\ is_triggered w e = true /\
    listen_body l w = Some (Dispatched, w') /\
    w_trace w' = w_trace w ++ dispatch_trace (e, fs) /\
    forall e'', e'' ∈ (event2func L).*1 -> is_triggered w e'' = true ->
                e <= e''.
Proof.
  intros Hl Hr Ha Hlive Hin' Htr'.
  destruct (first_triggered _ w Hlive)
    as [Hu|(pre & e & fs & post & E & Ht & Hpre & He & Htr)].
  { apply list_elem_of_fmap in Hin' as (p & -> & Hp).
    by rewrite (untriggered_not_triggered _ _ _ Hu Hp) in Htr'. }
  exists e, fs. eexists. split.
  { rewrite Ht. apply elem_of_app. right. apply elem_of_cons. by left. }
  split; [unfold is_triggered; by rewrite He|].
  split; [by eapply listen_body_dispatch|].
  cbn [w_trace]. split; [done|].
  intros e'' Hin Htr''. rewrite Ht in Hin, Ha.
  apply list_elem_of_fmap in Hin as (p & -> & Hp).
  apply elem_of_app in Hp as [Hp|Hp].
  - by rewrite (untriggered_not_triggered _ _ _ Hpre Hp) in Htr''.
  - apply elem_of_cons in Hp as [->|Hp]; [done|].
    apply ascending_app_r, ascending_lt in Ha.
    rewrite Forall_forall in Ha. specialize (Ha _ Hp). cbn in *. lia.
Qed.

End TableFacts.

(** ** The worker over several passes *)

Section WorkerFacts.

Context {S : Type} `{EventBase S}.

Implicit Types (w : World S) (L : Listener) (E : EventObj S).

Lemma is_triggered_insert_ne w e E e' tr :
  e' ≠ e ->
  is_triggered {| w_events := <[e := E]> (w_events w);
                  w_listeners := w_listeners w; w_trace := tr |} e'
  = is_triggered w e'.
Proof.
  intros Hne. unfold is_triggered. cbn [w_events].
  by rewrite lookup_insert_ne.
Qed.

Lemma triggered_entries_ne w e E tr t :
  e ∉ t.*1 ->
  triggered_entries {| w_events := <[e := E]> (w_events w);
                       w_listeners := w_listeners w; w_trace := tr |} t
  = triggered_entries w t.
Proof.
  unfold triggered_entries.
  induction t as [|[k v] t IH]; intros Hn; [done|].
  cbn [fmap list_fmap fst] in Hn. apply not_elem_of_cons in Hn as [Hne Hn].
  rewrite !filter_cons. cbn [fst].
  rewrite is_triggered_insert_ne by done. by rewrite IH.
Qed.

(** The entries still to service once the first triggered one has been
    dispatched and is no longer triggered. *)
Lemma triggered_entries_step w pre e fs post E tr :
  NoDup (pre ++ (e, fs) :: post).*1 ->
  untriggered w pre ->
  w_events w !! e = Some E -> trigger (ev_state E) = true ->
  trigger (reset (ev_state E)) = false ->
  triggered_entries w (pre ++ (e, fs) :: post)
  = (e, fs) ::
    triggered_entries
      {| w_events := <[e := reset_times 1 E]> (w_events w);
         w_listeners := w_listeners w; w_trace := tr |}
      (pre ++ (e, fs) :: post).
Proof.
  intros Hnd Hpre He Ht Hreset.
  rewrite fmap_app, fmap_cons in Hnd. cbn [fst] in Hnd.
  apply NoDup_app in Hnd as (_ & Hpre_ne & Hnd).
  apply NoDup_cons in Hnd as [Hpost _].
  assert (e ∉ pre.*1) as Hpre'.
  { intros Hin. apply (Hpre_ne _ Hin). apply elem_of_cons. by left. }
  unfold triggered_entries at 1 2.
  rewrite !filter_app, !filter_cons. cbn [fst].
  fold (triggered_entries w pre). fold (triggered_entries w post).
  match goal with |- context [filter _ pre] =>
    fold (triggered_entries
            {| w_events := <[e := reset_times 1 E]> (w_events w);
               w_listeners := w_listeners w; w_trace := tr |} pre);
    fold (triggered_entries
            {| w_events := <[e := reset_times 1 E]> (w_events w);
               w_listeners := w_listeners w; w_trace := tr |} post) end.
  rewrite !triggered_entries_ne by done.
  rewrite (untriggered_no_entries _ _ Hpre). cbn [app].
  assert (is_triggered w e = true) as Hyes.
  { unfold is_triggered. by rewrite He. }
  assert (is_triggered
            {| w_events := <[e := reset_times 1 E]> (w_events w);
               w_listeners := w_listeners w; w_trace := tr |} e = false)
    as Hno.
  { unfold is_triggered. cbn [w_events]. by rewrite lookup_insert_eq. }
  rewrite (decide_True (P := is_triggered w e = true)) by done.
  rewrite decide_False by (rewrite Hno; done). done.
Qed.

Lemma live_insert w e E E' tr (t : list (N * list N)) :
  w_events w !! e = Some E ->
  Forall (fun p => is_Some (w_events w !! p.1)) t ->
  Forall (fun p => is_Some
            (w_events {| w_events := <[e := E']> (w_events w);
                         w_listeners := w_listeners w; w_trace := tr |}
               !! p.1)) t.
Proof.
  intros He Hlive. eapply Forall_impl; [exact Hlive|].
  intros p Hp. cbn [w_events].
  destruct (decide (e = p.1)) as [<-|Hne];
    [rewrite lookup_insert_eq; eauto|by rewrite lookup_insert_ne].
Qed.

Lemma listen_quiesces_aux l L n : forall w,
  length (triggered_entries w (event2func L)) = n ->
  w_listeners w !! l = Some L -> l_running L = true ->
  NoDup (event2func L).*1 ->
  Forall (fun p => is_Some (w_events w !! p.1)) (event2func L) ->
  resets_clear w (event2func L) ->
  exists w',
    listen (Datatypes.S n) l w = Some (Waiting, w') /\
    w_trace w' = w_trace w
                   ++ flat_map dispatch_trace
                        (triggered_entries w (event2func L)) /\
    w_listeners w' = w_listeners w /\
    untriggered w' (event2func L) /\
    forall e, w_events w' !! e
              = if decide (e ∈ (triggered_entries w (event2func L)).*1)
                then reset_times 1 <$> w_events w !! e
                else w_events w !! e.
Proof.
  induction n as [|n IH]; intros w Hlen Hl Hr Hnd Hlive Hclear.
  - apply nil_length_inv in Hlen.
    destruct (first_triggered _ w Hlive)
      as [Hu|(pre & e & fs & post & E & Ht & Hpre & He & Htr)].
    + exists w. split; [by eapply listen_waits|].
      rewrite Hlen. cbn. rewrite app_nil_r. do 3 (split; [done|]).
      intros e. rewrite decide_False; [done|apply not_elem_of_nil].
    + exfalso. eapply (filter_nil_not_elem_of _ _ (e, fs) Hlen).
      * cbn. unfold is_triggered. by rewrite He.
      * rewrite Ht. apply elem_of_app. right. apply elem_of_cons. by left.
  - destruct (first_triggered _ w Hlive)
      as [Hu|(pre & e & fs & post & E & Ht & Hpre & He & Htr)].
    { by rewrite (untriggered_no_entries _ _ Hu) in Hlen. }
    assert (trigger (reset (ev_state E)) = false) as Hreset.
    { unfold resets_clear in Hclear. rewrite Forall_forall in Hclear.
      apply (Hclear (e, fs)); [|done..].
      rewrite Ht. apply elem_of_app. right. apply elem_of_cons. by left. }
    rewrite (listen_after_dispatch _ _ _ _ _ _ _ _ _ Hl Hr Ht Hpre He Htr).
    set (tr := w_trace w ++ map (fun f => Invoke f e) fs ++ [Reset e]).
    pose proof Hnd as Hnd'. rewrite Ht in Hnd'.
    pose proof (triggered_entries_step w pre e fs post E tr
                  Hnd' Hpre He Htr Hreset) as Hstep.
    rewrite <- Ht in Hstep.
    fold (reset_times 1 E).
    destruct (IH {| w_events := <[e := reset_times 1 E]> (w_events w);
                    w_listeners := w_listeners w; w_trace := tr |})
      as (w' & Hrun & Htrace & Hls & Hu & Hev).
    + rewrite Hstep in Hlen. cbn [length] in Hlen. lia.
    + done.
    + done.
    + done.
    + by eapply live_insert.
    + unfold resets_clear in *. rewrite Forall_forall in Hclear.
      apply Forall_forall. intros p Hp E' HE' Htr'. cbn [w_events] in HE'.
      destruct (decide (e = p.1)) as [Heq|Hne].
      * rewrite <- Heq, lookup_insert_eq in HE'. injection HE' as <-.
        cbn in Htr'. congruence.
      * rewrite lookup_insert_ne in HE' by done. by eapply Hclear.
    + exists w'. split; [exact Hrun|].
      split.
      { rewrite Htrace, Hstep. cbn [w_trace flat_map]. subst tr.
        unfold dispatch_trace at 2. cbn [fst snd].
        by rewrite <- !app_assoc. }
      split; [done|]. split; [done|].
      intros x. rewrite Hev, Hstep. cbn [w_events fmap list_fmap fst].
      assert (e ∉ (triggered_entries
                     {| w_events := <[e := reset_times 1 E]> (w_events w);
                        w_listeners := w_listeners w; w_trace := tr |}
                     (event2func L)).*1) as Hnotin.
      { intros Hin. apply list_elem_of_fmap in Hin as (p & Hpe & Hp).
        apply list_elem_of_filter in Hp as [Hp _].
        unfold is_triggered in Hp. cbn [w_events] in Hp.
        rewrite <- Hpe, lookup_insert_eq in Hp. cbn in Hp. congruence. }
      destruct (decide (x = e)) as [->|Hne].
      * rewrite decide_False by done.
        rewrite (decide_True (P := e ∈ e :: _))
          by (apply elem_of_cons; by left).
        by rewrite lookup_insert_eq, He.
      * rewrite lookup_insert_ne by done.
        destruct (decide (x ∈ _)) as [Hin|Hin].
        -- rewrite decide_True; [done|apply elem_of_cons; by right].
        -- rewrite decide_False; [done|].
           intros Hin'. apply elem_of_cons in Hin' as [?|?]; done.
Qed.

(** X12: when [reset()] leaves each triggered event of the table not
    triggered, the worker services every triggered event once, one per
    pass and in table order, and then stays in the wait.  Each serviced
    event has been reset once, every other event is as it was, and the
    listeners are untouched. *)
Theorem listen_quiesces w l L :
  w_listeners w !! l = Some L -> l_running L = true ->
  NoDup (event2func L).*1 ->
  Forall (fun p => is_Some (w_events w !! p.1)) (event2func L) ->
  resets_clear w (event2func L) ->
  exists w',
    listen (Datatypes.S (length (triggered_entries w (event2func L)))) l w
      = Some (Waiting, w') /\
    w_trace w' = w_trace w
                   ++ flat_map dispatch_trace
                        (triggered_entries w (event2func L)) /\
    w_listeners w' = w_listeners w /\
    untriggered w' (event2func L) /\
    forall e, w_events w' !! e
              = if decide (e ∈ (triggered_entries w (event2func L)).*1)
                then reset_times 1 <$> w_events w !! e
                else w_events w !! e.
Proof.
  intros. by eapply listen_quiesces_aux.
Qed.

Lemma reset_times_succ n E :
  reset_times n (reset_times 1 E) = reset_times (Datatypes.S n) E.
Proof.
  unfold reset_times. cbn [ev_cv ev_state]. f_equal.
  change (Nat.iter 1 reset (ev_state E)) with (reset (ev_state E)).
  by rewrite <- Nat.iter_succ_r.
Qed.

(** X13: for as long as the event found first stays triggered after its
    [reset()], every pass services that event again: [n] passes call its
    callbacks and reset it [n] times, and no event later in the table,
    triggered or not, is serviced or changed meanwhile. *)
Theorem listen_refires n : forall w l L pre e fs post E,
  w_listeners w !! l = Some L -> l_running L = true ->
  event2func L = pre ++ (e, fs) :: post ->
  untriggered w pre ->
  w_events w !! e = Some E ->
  (forall k, (k < n)%nat -> trigger (Nat.iter k reset (ev_state E)) = true) ->
  listen n l w
  = Some (Going,
          {| w_events := <[e := reset_times n E]> (w_events w);
             w_listeners := w_listeners w;
             w_trace := w_trace w
                          ++ concat (replicate n (dispatch_trace (e, fs))) |}).
Proof.
  induction n as [|n IH]; intros w l L pre e fs post E Hl Hr Ht Hpre He Hk.
  - cbn. unfold ret. rewrite app_nil_r.
    rewrite insert_id; [by destruct w|].
    rewrite He. by destruct E.
  - assert (trigger (ev_state E) = true) as Htr by (apply (Hk 0%nat); lia).
    rewrite (listen_after_dispatch _ _ _ _ _ _ _ _ _ Hl Hr Ht Hpre He Htr).
    fold (reset_times 1 E).
    erewrite (IH _ l L pre e fs post (reset_times 1 E)); [|done..| | |].
    + cbn [w_events w_listeners w_trace].
      rewrite insert_insert_eq, reset_times_succ.
      cbn [replicate concat]. unfold dispatch_trace at 2. cbn [fst snd].
      by rewrite <- !app_assoc.
    + unfold untriggered in *. rewrite Forall_forall in Hpre.
      apply Forall_forall. intros p Hp.
      destruct (Hpre p Hp) as (E' & HE' & Ht'). exists E'. split; [|done].
      cbn [w_events]. rewrite lookup_insert_ne; [done|].
      intros Heq. rewrite <- Heq, He in HE'. congruence.
    + cbn [w_events]. apply lookup_insert_eq.
    + intros k Hlt. cbn [reset_times ev_state].
      change (Nat.iter 1 reset (ev_state E)) with (reset (ev_state E)).
      rewrite <- Nat.iter_succ_r. apply Hk. lia.
Qed.

End WorkerFacts.

(** ** The key queue of the example *)

Lemma KeyEvent_push_all_eq cs : forall q,
  KeyEvent_push_all cs q = q ++ take (4 - length q) cs.
Proof.
  induction cs as [|c cs IH]; intros q.
  - by rewrite take_nil, app_nil_r.
  - unfold KeyEvent_push_all in *. cbn [fold_left]. rewrite IH.
    unfold KeyEvent_push. destruct (length q <? 4)%nat eqn:Hlt.
    + apply Nat.ltb_lt in Hlt. rewrite length_app. cbn [length].
      replace (4 - length q)%nat with (Datatypes.S (4 - (length q + 1)))
        by lia.
      cbn [take]. by rewrite <- app_assoc.
    + apply Nat.ltb_ge in Hlt.
      replace (4 - length q)%nat with 0%nat by lia. done.
Qed.

(** X14: typed characters are queued in order for as long as the queue
    holds fewer than four; the ones typed into a full queue are dropped,
    and the queued ones are never displaced.  The queue never grows past
    four. *)
Theorem KeyEvent_push_all_bounded cs q :
  KeyEvent_push_all cs q = q ++ take (4 - length q) cs /\
  (length (KeyEvent_push_all cs q) <= Nat.max 4 (length q))%nat.
Proof.
  split; [apply KeyEvent_push_all_eq|].
  rewrite KeyEvent_push_all_eq, length_app, length_take. lia.
Qed.

Lemma KeyEvent_read_take n : forall q, KeyEvent_read n q = take n q.
Proof.
  induction n as [|n IH]; intros q; [done|].
  destruct q as [|c q]; [done|]. cbn. by rewrite IH.
Qed.

Lemma KeyEvent_reset_times_drop n : forall q,
  KeyEvent_reset_times n q
  = if (n <=? length q)%nat then Some (drop n q) else None.
Proof.
  induction n as [|n IH]; intros q; [done|].
  destruct q as [|c q]; [done|].
  cbn [KeyEvent_reset_times KeyEvent_reset length drop]. apply IH.
Qed.

(** While the queue holds a character for each of them, [n] resets of
    the event leave the queue without its first [n] characters. *)
Lemma KeyEvent_reset_drop n : forall q : list ascii,
  (n <= length q)%nat -> Nat.iter n reset q = drop n q.
Proof.
  induction n as [|n IH]; intros q Hn; [done|].
  destruct q as [|c q]; [cbn [length] in Hn; lia|].
  rewrite Nat.iter_succ_r.
  change (reset (c :: q)) with q. cbn [drop length] in *.
  apply IH. lia.
Qed.

(** X15: the queue is first in, first out.  Over [n] dispatches the
    callbacks read the first [n] queued characters in the order they
    were typed.  [n] resets in a row are defined as long as the queue
    holds [n] characters, and leave the rest of the queue; one reset
    more than the queue holds characters is not defined.  Of characters
    typed into an empty queue, the first four come back, in order. *)
Theorem KeyEvent_fifo n q cs :
  KeyEvent_read n q = take n q /\
  KeyEvent_reset_times n q
  = (if (n <=? length q)%nat then Some (drop n q) else None) /\
  KeyEvent_read 4 (KeyEvent_push_all cs []) = take 4 cs.
Proof.
  split; [apply KeyEvent_read_take|].
  split; [apply KeyEvent_reset_times_drop|].
  rewrite KeyEvent_read_take, KeyEvent_push_all_eq. cbn [app length].
  apply take_take.
Qed.

Lemma KeyEvent_stays_triggered (q : list ascii) k :
  (k < length q)%nat -> trigger (Nat.iter k reset q) = true.
Proof.
  intros Hlt. rewrite KeyEvent_reset_drop by lia.
  cbn [trigger KeyEvent]. unfold KeyEvent_trigger.
  apply Nat.ltb_lt. rewrite length_drop. lia.
Qed.

(** X16: a [KeyEvent] found first with [n] characters queued is serviced
    [n] passes in a row, once per character, before any later event of
    the table; its queue is empty afterwards and no other event has
    changed. *)
Theorem KeyEvent_queue_drained w l L pre e fs post E :
  w_listeners w !! l = Some L -> l_running L = true ->
  event2func L = pre ++ (e, fs) :: post ->
  untriggered w pre ->
  w_events w !! e = Some E ->
  listen (length (ev_state E)) l w
  = Some (Going,
          {| w_events := <[e := {| ev_cv := ev_cv E; ev_state := [] |}]>
                           (w_events w);
             w_listeners := w_listeners w;
             w_trace := w_trace w
                          ++ concat (replicate (length (ev_state E))
                                       (dispatch_trace (e, fs))) |}).
Proof.
  intros Hl Hr Ht Hpre He.
  rewrite (listen_refires _ w l L pre e fs post E Hl Hr Ht Hpre He).
  - unfold reset_times.
    by rewrite KeyEvent_reset_drop, drop_all.
  - intros k Hk. by apply KeyEvent_stays_triggered.
Qed.

Lemma KeyEvent_push_instances_run instances c : forall w,
  NoDup instances ->
  Forall (fun e => is_Some (w_events w !! e)) instances ->
  bound_alive w instances ->
  exists w',
    KeyEvent_push_instances instances c w = Some (tt, w') /\
    w_listeners w' = w_listeners w /\
    (forall e, w_events w' !! e
               = if decide (e ∈ instances)
                 then KeyEvent_pushed c <$> w_events w !! e
                 else w_events w !! e) /\
    w_trace w' = w_trace w ++ flat_map (notify_trace w) instances.
Proof.
  induction instances as [|e0 es IH]; intros w Hnd Hlive Hcv.
  - exists w. split; [done|]. split; [done|]. split.
    + intros e. rewrite decide_False; [done|apply not_elem_of_nil].
    + cbn. by rewrite app_nil_r.
  - apply NoDup_cons in Hnd as [Hnotin Hnd].
    apply Forall_cons in Hlive as [[E0 He0] Hlive].
    apply Forall_cons in Hcv as [Hcv0 Hcvs].
    set (w0 := {| w_events := <[e0 := KeyEvent_pushed c E0]> (w_events w);
                  w_listeners := w_listeners w;
                  w_trace := w_trace w ++ notify_trace w e0 |}).
    assert (bind (load_event e0) (fun E =>
              bind (store_event e0
                      {| ev_cv := ev_cv E;
                         ev_state := KeyEvent_push c (ev_state E) |})
                (fun _ => internal e0)) w = Some (tt, w0)) as Hstep.
    { unfold internal. run_store. rewrite He0. run_store.
      rewrite lookup_insert_eq. subst w0. unfold notify_trace.
      rewrite He0. cbn [ev_cv KeyEvent_pushed].
      destruct (ev_cv E0) as [l0|] eqn:Hcv.
      - destruct (Hcv0 E0 l0 He0 Hcv) as [L0 HL0].
        run_store. rewrite HL0. run_store.
        unfold KeyEvent_pushed. by rewrite Hcv.
      - run_store. unfold KeyEvent_pushed.
        by rewrite Hcv, app_nil_r. }
    destruct (IH w0 Hnd) as (w' & Hrun & Hls & Hev & Htr).
    { eapply Forall_impl; [exact Hlive|]. intros e He. unfold w0. cbn [w_events].
      destruct (decide (e0 = e)) as [<-|Hne];
        [rewrite lookup_insert_eq; eauto|by rewrite lookup_insert_ne]. }
    { unfold bound_alive in *. rewrite Forall_forall in Hcvs.
      apply Forall_forall. intros e Hin E l. unfold w0.
      cbn [w_events w_listeners]. rewrite lookup_insert_ne.
      - by apply Hcvs.
      - intros ->. done. }
    exists w'. split.
    { unfold KeyEvent_push_instances in *. cbn [for_each].
      unfold bind at 1. by rewrite Hstep. }
    split; [done|]. split.
    + intros e. rewrite Hev. unfold w0. cbn [w_events].
      destruct (decide (e = e0)) as [->|Hne].
      * rewrite decide_False by done.
        rewrite (decide_True (P := e0 ∈ e0 :: es))
          by (apply elem_of_cons; by left).
        by rewrite lookup_insert_eq, He0.
      * rewrite lookup_insert_ne by done.
        destruct (decide (e ∈ es)) as [Hin|Hin].
        -- rewrite decide_True; [done|apply elem_of_cons; by right].
        -- rewrite decide_False; [done|].
           intros Hin'. apply elem_of_cons in Hin' as [?|?]; done.
    + rewrite Htr. unfold w0. cbn [w_trace flat_map]. rewrite <- app_assoc.
      do 2 f_equal. apply flat_map_same. intros e Hin.
      unfold notify_trace. cbn [w_events].
      rewrite lookup_insert_ne; [done|]. intros ->. done.
Qed.

(** X17: with every instance alive and the listeners that instances
    are bound to alive too, [KeyEvent::push] goes through the instances
    in list order.  It queues the character on each instance with room,
    leaves a full queue as it is, and in both cases notifies the
    condition variable the instance is bound to, once; an instance never
    registered notifies nothing.  No other event and no listener
    changes. *)
Theorem KeyEvent_push_instances_notifies instances c w :
  NoDup instances ->
  Forall (fun e => is_Some (w_events w !! e)) instances ->
  bound_alive w instances ->
  exists w',
    KeyEvent_push_instances instances c w = Some (tt, w') /\
    w_listeners w' = w_listeners w /\
    (forall e, w_events w' !! e
               = if decide (e ∈ instances)
                 then KeyEvent_pushed c <$> w_events w !! e
                 else w_events w !! e) /\
    w_trace w' = w_trace w ++ flat_map (notify_trace w) instances.
Proof.
  apply KeyEvent_push_instances_run.
Qed.


(** * Release 1.2.0: the polling listener *)

(** Runs the primitive store operations of the polling model. *)
Ltac run_poll :=
  repeat (progress (unfold Polling.bind, Polling.ret, Polling.emit,
                      Polling.load_listener, Polling.store_listener,
                      Polling.load_event, Polling.store_event;
                    cbn [Polling.w_events Polling.w_listeners
                         Polling.w_trace])).

Section PollingFacts.

Import Polling.

Context {S : Type} `{EventBase S}.

Implicit Types (w : World S) (L : Listener).

Lemma poll_for_each_invoke e fs : forall w,
  for_each fs (fun f => emit (Invoke f e)) w
  = Some (tt, {| w_events := w_events w; w_listeners := w_listeners w;
                 w_trace := w_trace w ++ map (fun f => Invoke f e) fs |}).
Proof.
  induction fs as [|f fs IH]; intros w; cbn [for_each map].
  - rewrite app_nil_r. by destruct w.
  - run_poll. rewrite IH. cbn [w_events w_listeners w_trace].
    by rewrite <- app_assoc.
Qed.

Lemma reset_opt_main (s : S) :
  main_condition s = true -> reset_opt s = Some (reset s).
Proof.
  intros Hm. destruct (reset_main s Hm) as [s' Hs].
  unfold reset. by rewrite Hs.
Qed.

Lemma sweep_entry_run w e fs s :
  w_events w !! e = Some s ->
  sweep_entry (e, fs) w
  = Some (tt, {| w_events := <[e := after_sweep s]> (w_events w);
                 w_listeners := w_listeners w;
                 w_trace := w_trace w ++ entry_trace w (e, fs) |}).
Proof.
  intros He. unfold sweep_entry, entry_trace, after_sweep. cbn [fst snd].
  unfold bind at 1. unfold load_event at 1. rewrite He.
  destruct (main_condition s) eqn:Hm; destruct (sub_condition s) eqn:Hs;
    cbn [andb].
  - unfold bind at 1. rewrite poll_for_each_invoke.
    unfold event_reset. run_poll. rewrite He, (reset_opt_main s Hm).
    run_poll. by rewrite <- app_assoc.
  - unfold event_reset. run_poll. rewrite He, (reset_opt_main s Hm).
    run_poll. done.
  - run_poll. rewrite insert_id by done. rewrite !app_nil_r. by destruct w.
  - run_poll. rewrite insert_id by done. rewrite !app_nil_r. by destruct w.
Qed.

Lemma sweep_run t : forall w,
  NoDup t.*1 ->
  Forall (fun p => is_Some (w_events w !! p.1)) t ->
  exists w',
    for_each t sweep_entry w = Some (tt, w') /\
    w_listeners w' = w_listeners w /\
    w_trace w' = w_trace w ++ flat_map (entry_trace w) t /\
    forall e, w_events w' !! e
              = if decide (e ∈ t.*1) then after_sweep <$> w_events w !! e
                else w_events w !! e.
Proof.
  induction t as [|[e0 fs0] t IH]; intros w Hnd Hlive.
  - exists w. split; [done|]. split; [done|]. split.
    + cbn. by rewrite app_nil_r.
    + intros e. rewrite decide_False; [done|apply not_elem_of_nil].
  - cbn [fmap list_fmap fst] in Hnd. apply NoDup_cons in Hnd as [Hnotin Hnd].
    apply Forall_cons in Hlive as [[s0 He0] Hlive]. cbn [fst] in He0.
    pose proof (sweep_entry_run w e0 fs0 s0 He0) as Hstep.
    match type of Hstep with _ = Some (_, ?w0) =>
      destruct (IH w0 Hnd) as (w' & Hrun & Hls & Htr & Hev) end.
    { eapply Forall_impl; [exact Hlive|]. intros p Hp. cbn [w_events].
      destruct (decide (e0 = p.1)) as [<-|Hne];
        [rewrite lookup_insert_eq; eauto|by rewrite lookup_insert_ne]. }
    exists w'. split.
    { cbn [for_each]. unfold bind at 1. by rewrite Hstep. }
    split; [done|]. split.
    + rewrite Htr. cbn [w_trace flat_map]. rewrite <- app_assoc.
      do 2 f_equal. apply flat_map_same. intros p Hp.
      unfold entry_trace. cbn [w_events].
      rewrite lookup_insert_ne; [done|].
      intros Heq. apply Hnotin. apply list_elem_of_fmap. by exists p.
    + intros e. rewrite Hev. cbn [w_events fmap list_fmap fst].
      destruct (decide (e = e0)) as [->|Hne].
      * rewrite decide_False by done.
        rewrite (decide_True (P := e0 ∈ e0 :: _))
          by (apply elem_of_cons; by left).
        by rewrite lookup_insert_eq, He0.
      * rewrite lookup_insert_ne by done.
        destruct (decide (e ∈ _)) as [Hin|Hin].
        -- rewrite decide_True; [done|apply elem_of_cons; by right].
        -- rewrite decide_False; [done|].
           intros Hin'. apply elem_of_cons in Hin' as [?|?]; done.
Qed.

(** X19: one sweep of the polling worker goes through the whole table
    in order.  Every event whose main condition holds is reset, once;
    its callbacks are called first, in registration order, when its sub
    condition holds too, and not at all otherwise, so that such an event
    is reset without any callback.  Events whose main condition fails,
    events outside the table and the listeners are left alone. *)
Theorem polling_sweep t w :
  NoDup t.*1 ->
  Forall (fun p => is_Some (w_events w !! p.1)) t ->
  exists w',
    for_each t sweep_entry w = Some (tt, w') /\
    w_listeners w' = w_listeners w /\
    w_trace w' = w_trace w ++ flat_map (entry_trace w) t /\
    forall e, w_events w' !! e
              = if decide (e ∈ t.*1) then after_sweep <$> w_events w !! e
                else w_events w !! e.
Proof.
  apply sweep_run.
Qed.

(** A sweep over events whose main condition fails changes nothing. *)
Lemma sweep_quiet t : forall w,
  Forall (fun p => exists s, w_events w !! p.1 = Some s /\
                             main_condition s = false) t ->
  for_each t sweep_entry w = Some (tt, w).
Proof.
  induction t as [|[e fs] t IH]; intros w Hq; [done|].
  apply Forall_cons in Hq as [(s & He & Hm) Hq]. cbn [fst] in He.
  cbn [for_each]. unfold bind at 1.
  rewrite (sweep_entry_run w e fs s He).
  unfold entry_trace, after_sweep. cbn [fst w_events]. rewrite He, Hm.
  cbn [andb app]. rewrite app_nil_r, insert_id by done.
  replace {| w_events := w_events w; w_listeners := w_listeners w;
             w_trace := w_trace w |} with w by (by destruct w).
  by apply IH.
Qed.

Lemma listen_quiet n : forall w l L,
  w_listeners w !! l = Some L -> running L = true ->
  Forall (fun p => exists s, w_events w !! p.1 = Some s /\
                             main_condition s = false) (event2func L) ->
  listen n l w
  = Some (Going, {| w_events := w_events w; w_listeners := w_listeners w;
                    w_trace := w_trace w
                                 ++ replicate n (Sleep (listener_interval L)) |}).
Proof.
  induction n as [|n IH]; intros w l L Hl Hr Hq.
  - cbn. unfold ret. rewrite app_nil_r. by destruct w.
  - cbn [listen]. unfold bind at 1. unfold load_listener at 1.
    rewrite Hl, Hr. unfold bind at 1. rewrite (sweep_quiet _ _ Hq).
    run_poll. rewrite Hl. run_poll.
    rewrite (IH _ l L); [|done|done|done].
    cbn [w_events w_listeners w_trace replicate].
    by rewrite <- app_assoc.
Qed.

(** X20: when [reset()] clears the main condition of the registered
    events, the polling worker handles the whole backlog in its first
    sweep, whatever the number of events waiting: the sweeps that follow
    find nothing, and only sleep for the interval the listener was
    given. *)
Theorem polling_listen_backlog n w l L :
  w_listeners w !! l = Some L -> running L = true ->
  NoDup (event2func L).*1 ->
  Forall (fun p => exists s, w_events w !! p.1 = Some s /\
                             main_condition (after_sweep s) = false)
    (event2func L) ->
  exists w',
    listen (Datatypes.S n) l w = Some (Going, w') /\
    w_listeners w' = w_listeners w /\
    w_trace w' = w_trace w
                   ++ flat_map (entry_trace w) (event2func L)
                   ++ replicate (Datatypes.S n) (Sleep (listener_interval L)) /\
    forall e, w_events w' !! e
              = if decide (e ∈ (event2func L).*1)
                then after_sweep <$> w_events w !! e
                else w_events w !! e.
Proof.
  intros Hl Hr Hnd Hclear.
  destruct (sweep_run (event2func L) w Hnd) as (w1 & Hsweep & Hls & Htr & Hev).
  { eapply Forall_impl; [exact Hclear|]. intros p (s & -> & _). eauto. }
  eexists. split.
  { cbn [listen]. unfold bind at 1. unfold load_listener at 1.
    rewrite Hl, Hr. unfold bind at 1. rewrite Hsweep.
    run_poll. rewrite Hls, Hl. run_poll.
    apply (listen_quiet n _ l L).
    - cbn [w_listeners]. by rewrite Hls.
    - done.
    - cbn [w_events]. rewrite Forall_forall in Hclear.
      apply Forall_forall. intros p Hp.
      destruct (Hclear p Hp) as (s & Hs & Hm).
      exists (after_sweep s). split; [|done].
      rewrite Hev, decide_True, Hs; [done|].
      apply list_elem_of_fmap. by exists p. }
  cbn [w_listeners w_trace w_events]. split; [done|]. split; [|done].
  rewrite Htr. cbn [replicate]. by rewrite <- !app_assoc.
Qed.

(** X21: the stop handshake.  [start()] on an idle listener sets both
    flags and spawns the worker; [stop()] then clears [running] and
    spins, because the worker has not yet cleared [thread_working]; the
    worker, at its next look at [running], clears it and returns without
    another sweep; the spin then ends.  The listener is back as it was
    and the only trace left is the spawn. *)
Theorem polling_stop_handshake w l L n :
  w_listeners w !! l = Some L ->
  running L = false -> thread_working L = false ->
  exists w1 w2 w3,
    Listener_start l w = Some (tt, w1) /\
    Listener_stop l w1 = Some (Spinning, w2) /\
    listen (Datatypes.S n) l w2 = Some (Returned, w3) /\
    spin l w3 = Some (Stopped, w3) /\
    w_listeners w3 = w_listeners w /\
    w_events w3 = w_events w /\
    w_trace w3 = w_trace w ++ [Spawn l].
Proof.
  intros Hl Hr Ht. destruct L as [t r tw i]. cbn in Hr, Ht. subst r tw.
  eexists _, _, _. split.
  { unfold Listener_start. run_poll. rewrite Hl. cbn [running negb].
    run_poll. done. }
  split.
  { unfold Listener_stop, spin. run_poll. rewrite lookup_insert_eq.
    cbn [set_thread_working set_running running]. run_poll.
    rewrite lookup_insert_eq. cbn [thread_working]. done. }
  split.
  { cbn [listen]. run_poll. rewrite lookup_insert_eq. cbn [running].
    run_poll. done. }
  split.
  { unfold spin. run_poll. rewrite lookup_insert_eq. done. }
  cbn [w_listeners w_events w_trace]. split; [|done].
  rewrite !insert_insert_eq. cbn. by apply insert_id.
Qed.

End PollingFacts.

(** * What the code does not guard against *)

Lemma map_push_back_found pre e fs post f :
  ascending (pre ++ (e, fs) :: post) ->
  map_push_back e f (pre ++ (e, fs) :: post) = pre ++ (e, fs ++ [f]) :: post.
Proof.
  induction pre as [|[k v] pre IH]; intros Ha.
  - cbn. by rewrite N.ltb_irrefl, N.eqb_refl.
  - pose proof (ascending_lt _ _ _ Ha) as Hlt.
    apply Forall_app in Hlt as [_ Hlt]. apply Forall_cons in Hlt as [Hlt _].
    cbn in Hlt. cbn [app map_push_back].
    assert ((e <? k) = false) as -> by (apply N.ltb_ge; lia).
    assert ((e =? k) = false) as -> by (apply N.eqb_neq; lia).
    rewrite IH; [done|]. by eapply ascending_tail.
Qed.

Section Unguarded.

Context {S : Type} `{EventBase S}.

Implicit Types (w : World S) (L : Listener) (E : EventObj S).

(** X22: [register_event] does not look at the running flag.  On a
    running listener the callback is in the table as soon as the call
    returns, and the next pass that services the event calls it, after
    the callbacks registered before. *)
Theorem register_event_while_running w l L pre e fs post E f :
  w_listeners w !! l = Some L -> l_running L = true ->
  event2func L = pre ++ (e, fs) :: post -> ascending (event2func L) ->
  untriggered w pre ->
  w_events w !! e = Some E -> trigger (ev_state E) = true ->
  exists w1 w2,
    register_event l e f w = Some (tt, w1) /\
    listen_body l w1 = Some (Dispatched, w2) /\
    w_trace w2 = w_trace w ++ dispatch_trace (e, fs ++ [f]).
Proof.
  intros Hl Hr Ht Ha Hpre He Htr.
  eexists _, _. split; [by apply register_event_run|].
  split.
  { eapply (listen_body_dispatch _ l _ pre e (fs ++ [f]) post).
    - cbn [w_listeners]. apply lookup_insert_eq.
    - done.
    - cbn [set_event2func event2func]. rewrite Ht.
      apply map_push_back_found. by rewrite <- Ht.
    - unfold untriggered in *. rewrite Forall_forall in Hpre.
      apply Forall_forall. intros p Hp.
      destruct (Hpre p Hp) as (E' & HE' & Ht'). exists E'. split; [|done].
      cbn [w_events]. rewrite lookup_insert_ne; [done|].
      intros Heq. rewrite <- Heq, He in HE'. congruence.
    - cbn [w_events]. apply lookup_insert_eq.
    - done. }
  done.
Qed.

Lemma Listener_start_absent w w' l l' :
  w_listeners w !! l = None ->
  Listener_start l' w = Some (tt, w') ->
  w_listeners w' !! l = None.
Proof.
  intros Hl. unfold Listener_start, thread_spawn. run_store.
  destruct (w_listeners w !! l') as [L'|] eqn:Hl'; [|done].
  destruct (l_running L'); cbn [negb].
  - by intros [= <-].
  - run_store. rewrite lookup_insert_eq.
    cbn [set_running listener_thread].
    destruct (listener_thread L'); [done|]. run_store.
    intros [= <-]. cbn [w_listeners].
    rewrite !lookup_insert_ne; [done|congruence..].
Qed.

Lemma start_all_absent ls l : forall w,
  l ∈ ls -> w_listeners w !! l = None ->
  for_each ls Listener_start w = None.
Proof.
  induction ls as [|l0 ls IH]; intros w Hin Hl.
  - by apply not_elem_of_nil in Hin.
  - cbn [for_each]. unfold bind.
    destruct (Listener_start l0 w) as [[[] w0]|] eqn:Hs; [|done].
    apply elem_of_cons in Hin as [->|Hin].
    + revert Hs. unfold Listener_start. run_store. by rewrite Hl.
    + apply IH; [done|]. by eapply Listener_start_absent.
Qed.

(** X23: [add_listener] takes any pointer, but [start()] goes through
    every listener of the collection: with a pointer to no listener
    object in it, null or dangling, the call is undefined, wherever in
    the collection the pointer is. *)
Theorem EventHandler_start_missing_listener h w l :
  h_running h = false ->
  l ∈ listeners h -> w_listeners w !! l = None ->
  EventHandler_start h w = None.
Proof.
  intros Hr Hin Hl.
  unfold EventHandler_start. rewrite Hr. cbn [negb set_h_running listeners].
  unfold bind. by rewrite (start_all_absent _ l w Hin Hl).
Qed.

Lemma Listener_stop_absent w w' l l' :
  w_listeners w !! l = None ->
  Listener_stop l' w = Some (tt, w') ->
  w_listeners w' !! l = None.
Proof.
  intros Hl. unfold Listener_stop, thread_join. run_store.
  destruct (w_listeners w !! l') as [L'|] eqn:Hl'; [|done].
  destruct (l_running L').
  - run_store. rewrite lookup_insert_eq.
    cbn [set_running listener_thread].
    destruct (listener_thread L'); [|done]. run_store.
    intros [= <-]. cbn [w_listeners].
    rewrite !lookup_insert_ne; [done|congruence..].
  - by intros [= <-].
Qed.

Lemma delete_Listener_absent w w' l l' :
  w_listeners w !! l = None ->
  delete_Listener l' w = Some (tt, w') ->
  w_listeners w' !! l = None.
Proof.
  intros Hl. unfold delete_Listener.
  destruct (l' =? nullptr); [by intros [= <-]|].
  unfold Listener_dtor. unfold bind at 1 2.
  destruct (Listener_stop l' w) as [[[] w0]|] eqn:Hs; [|done].
  pose proof (Listener_stop_absent _ _ _ _ Hl Hs) as Hl0.
  run_store.
  destruct (w_listeners w0 !! l') as [L'|] eqn:Hl'; [|done].
  destruct (listener_thread L'); [done|]. run_store. rewrite Hl'.
  intros [= <-]. cbn [w_listeners].
  destruct (decide (l' = l)) as [->|Hne];
    [apply lookup_delete_eq|by rewrite lookup_delete_ne].
Qed.

Lemma delete_Listener_gone w w' l :
  l ≠ nullptr ->
  delete_Listener l w = Some (tt, w') ->
  w_listeners w' !! l = None.
Proof.
  intros Hn. unfold delete_Listener. apply N.eqb_neq in Hn. rewrite Hn.
  unfold Listener_dtor. unfold bind at 1 2.
  destruct (Listener_stop l w) as [[[] w0]|] eqn:Hs; [|done].
  run_store.
  destruct (w_listeners w0 !! l) as [L|] eqn:Hl; [|done].
  destruct (listener_thread L); [done|]. run_store. rewrite Hl.
  intros [= <-]. cbn [w_listeners]. apply lookup_delete_eq.
Qed.

Lemma delete_all_absent ls l : forall w,
  l ≠ nullptr -> l ∈ ls -> w_listeners w !! l = None ->
  for_each ls delete_Listener w = None.
Proof.
  induction ls as [|l0 ls IH]; intros w Hn Hin Hl.
  - by apply not_elem_of_nil in Hin.
  - cbn [for_each]. unfold bind.
    destruct (delete_Listener l0 w) as [[[] w0]|] eqn:Hd; [|done].
    apply elem_of_cons in Hin as [->|Hin].
    + revert Hd. unfold delete_Listener. apply N.eqb_neq in Hn. rewrite Hn.
      unfold Listener_dtor, Listener_stop. run_store. by rewrite Hl.
    + apply IH; [done..|]. by eapply delete_Listener_absent.
Qed.

Lemma delete_all_twice ls : forall w,
  Forall (fun l => l ≠ nullptr) ls -> ~ NoDup ls ->
  for_each ls delete_Listener w = None.
Proof.
  induction ls as [|l0 ls IH]; intros w Hn Hdup.
  - destruct Hdup. constructor.
  - apply Forall_cons in Hn as [Hn0 Hn].
    cbn [for_each]. unfold bind.
    destruct (delete_Listener l0 w) as [[[] w0]|] eqn:Hd; [|done].
    destruct (decide (l0 ∈ ls)) as [Hin|Hnotin].
    + apply (delete_all_absent ls l0); [done..|].
      by eapply delete_Listener_gone.
    + apply IH; [done|]. intros Hnd. apply Hdup. by apply NoDup_cons.
Qed.

(** X24: [add_listener] does not check whether the handler already has
    the listener.  An owning handler whose collection holds a listener
    twice cannot be cleaned up: [cleanup()], and so the destructor,
    deletes the listener a second time, which is undefined. *)
Theorem EventHandler_cleanup_double_delete h w :
  listener_type h = DYNAMIC_LISTENER ->
  Forall (fun l => l ≠ nullptr) (listeners h) ->
  ~ NoDup (listeners h) ->
  EventHandler_cleanup h w = None /\ EventHandler_dtor h w = None.
Proof.
  intros Hty Hn Hdup.
  assert (EventHandler_cleanup h w = None) as Hc; [|by split].
  unfold EventHandler_cleanup. unfold bind at 1 2.
  destruct (EventHandler_stop h w) as [[h1 w1]|] eqn:Hstop; [|done].
  apply EventHandler_stop_result in Hstop. subst h1.
  cbn [set_h_running listener_type listeners]. rewrite Hty.
  unfold bind. by rewrite (delete_all_twice _ w1 Hn Hdup).
Qed.

End Unguarded.

(** * The added theorems on the small configurations *)

Lemma demo_world_listeners l L :
  w_listeners demo_world !! l = Some L ->
  (l = 1 /\ L = demo_listener1) \/ (l = 2 /\ L = demo_listener2).
Proof.
  unfold demo_world. cbn [w_listeners]. intros Hl.
  apply lookup_insert_Some in Hl as [[<- <-]|[_ Hl]]; [by left|].
  apply lookup_singleton_Some in Hl as [<- <-]. by right.
Defined.

Lemma demo_tables_ok l L :
  w_listeners demo_world !! l = Some L -> table_ok (event2func L).
Proof.
  intros Hl. destruct (demo_world_listeners l L Hl) as [[_ ->]|[_ ->]].
  - split; [cbn; lia|]. repeat constructor; discriminate.
  - split; [exact I|constructor].
Defined.

Lemma demo_keys_NoDup : NoDup (event2func demo_listener1).*1.
Proof.
  apply ascending_NoDup. cbn. lia.
Defined.

Lemma demo_listener1_ok : listener_ok demo_world 1.
Proof.
  split; [discriminate|]. eexists. split; reflexivity.
Defined.

Lemma start_stop_calls_safe_witness :
  exists w' L L',
    start_stop_calls 1 [false; true; true; false; true] demo_world
      = Some (tt, w') /\
    listener_ok w' 1 /\
    w_listeners demo_world !! 1 = Some L /\ w_listeners w' !! 1 = Some L' /\
    event2func L' = event2func L /\
    l_running L' = default (l_running L)
                     (last [false; true; true; false; true]) /\
    w_events w' = w_events demo_world /\
    forall l', l' ≠ 1 ->
      w_listeners w' !! l' = w_listeners demo_world !! l'.
Proof.
  exact (start_stop_calls_safe demo_world 1 [false; true; true; false; true]
           demo_listener1_ok).
Defined.

Lemma Listener_start_stop_round_trip_witness :
  exists w1 w2,
    Listener_start 2 demo_world = Some (tt, w1) /\
    w_listeners w1 !! 2 = Some (started demo_listener2) /\
    Listener_stop 2 w1 = Some (tt, w2) /\
    w_listeners w2 = w_listeners demo_world /\
    w_events w2 = w_events demo_world /\
    w_trace w2 = w_trace demo_world ++ [Spawn 2; NotifyOne 2; Join 2].
Proof.
  apply (Listener_start_stop_round_trip demo_world 2 demo_listener2);
    reflexivity.
Defined.

Lemma worker_returns_after_stop_witness :
  exists w1,
    Listener_stop 1 demo_world = Some (tt, w1) /\
    w_trace w1 = w_trace demo_world ++ [NotifyOne 1; Join 1] /\
    listen_body 1 w1 = Some (Skipped, w1) /\
    listen 4 1 w1 = Some (Returned, w1).
Proof.
  apply (worker_returns_after_stop demo_world 1 demo_listener1 3);
    reflexivity.
Defined.

Lemma delete_Listener_stops_first_witness :
  delete_Listener nullptr demo_world = Some (tt, demo_world) /\
  delete_Listener 1 demo_world
  = Some (tt, {| w_events := w_events demo_world;
                 w_listeners := delete 1 (w_listeners demo_world);
                 w_trace := w_trace demo_world ++ stop_trace demo_world 1
                              ++ [Delete 1] |}).
Proof.
  split.
  - exact (proj1 (delete_Listener_stops_first demo_world)).
  - apply (proj2 (delete_Listener_stops_first demo_world) 1 demo_listener1);
      [discriminate|reflexivity|reflexivity].
Defined.






Lemma EventHandler_cleanup_twice_witness :
  exists h' w',
    EventHandler_cleanup (demo_handler DYNAMIC_LISTENER) demo_world
      = Some (h', w') /\
    listeners h' = [] /\ h_running h' = false /\
    listener_type h' = DYNAMIC_LISTENER /\
    EventHandler_cleanup h' w' = Some (h', w') /\
    EventHandler_dtor h' w' = Some (h', w').
Proof.
  eexists _, _. split; [reflexivity|].
  eapply (EventHandler_cleanup_twice (demo_handler DYNAMIC_LISTENER)
            demo_world). reflexivity.
Defined.

Lemma demo_regs_live :
  Forall (fun r : N * N * N =>
            is_Some (w_listeners demo_world !! r.1.1) /\
            is_Some (w_events demo_world !! r.1.2))
    [(1, 30, 300); (2, 10, 301); (1, 10, 302)].
Proof.
  repeat constructor; eexists; reflexivity.
Defined.

Lemma register_all_keeps_tables_witness :
  exists w',
    register_all [(1, 30, 300); (2, 10, 301); (1, 10, 302)] demo_world
      = Some (tt, w') /\
    (forall l L, w_listeners w' !! l = Some L ->
       table_ok (event2func L) /\ NoDup (event2func L).*1) /\
    forall l, is_Some (w_listeners w' !! l)
              <-> is_Some (w_listeners demo_world !! l).
Proof.
  exact (register_all_keeps_tables _ demo_world demo_tables_ok
           demo_regs_live).
Defined.

Lemma event_has_happened_first_witness :
  (untriggered demo_world (event2func demo_listener1) /\
   event_has_happened 1 demo_world
     = Some ((false, nullptr, None), demo_world)) \/
  exists pre e fs post,
    event2func demo_listener1 = pre ++ (e, fs) :: post /\
    untriggered demo_world pre /\ is_triggered demo_world e = true /\
    fs ≠ [] /\
    event_has_happened 1 demo_world = Some ((true, e, Some fs), demo_world).
Proof.
  apply (event_has_happened_first demo_world 1 demo_listener1);
    [reflexivity|exact (demo_tables_ok 1 demo_listener1 eq_refl)
    |exact demo_events_live].
Defined.

Lemma demo_key_30 : 30 ∈ (event2func demo_listener1).*1.
Proof.
  cbn. apply elem_of_cons. right. apply elem_of_cons. right.
  apply elem_of_cons. by left.
Defined.

Lemma listen_body_lowest_address_witness :
  exists e fs w',
    (e, fs) ∈ event2func demo_listener1 /\
    is_triggered demo_world e = true /\
    listen_body 1 demo_world = Some (Dispatched, w') /\
    w_trace w' = w_trace demo_world ++ dispatch_trace (e, fs) /\
    forall e'', e'' ∈ (event2func demo_listener1).*1 ->
                is_triggered demo_world e'' = true -> e <= e''.
Proof.
  apply (listen_body_lowest_address demo_world 1 demo_listener1 30);
    [reflexivity|reflexivity|cbn; lia|exact demo_events_live
    |exact demo_key_30|reflexivity].
Defined.

Lemma demo_single_live :
  Forall (fun p : N * list N => is_Some (w_events demo_single !! p.1))
    (event2func demo_listener1).
Proof.
  repeat constructor; eexists; reflexivity.
Defined.

Lemma demo_single_clear :
  resets_clear demo_single (event2func demo_listener1).
Proof.
  repeat constructor; intros E HE; vm_compute in HE; injection HE as <-;
    (reflexivity || discriminate).
Defined.

Lemma listen_quiesces_witness :
  exists w',
    listen
      (Datatypes.S
         (length (triggered_entries demo_single (event2func demo_listener1))))
      1 demo_single
      = Some (Waiting, w') /\
    w_trace w' = w_trace demo_single
                   ++ flat_map dispatch_trace
                        (triggered_entries demo_single
                           (event2func demo_listener1)) /\
    w_listeners w' = w_listeners demo_single /\
    untriggered w' (event2func demo_listener1) /\
    forall e, w_events w' !! e
              = if decide (e ∈ (triggered_entries demo_single
                                  (event2func demo_listener1)).*1)
                then reset_times 1 <$> w_events demo_single !! e
                else w_events demo_single !! e.
Proof.
  apply (listen_quiesces demo_single 1 demo_listener1);
    [reflexivity|reflexivity|exact demo_keys_NoDup|exact demo_single_live
    |exact demo_single_clear].
Defined.

Lemma demo_busy_untriggered : untriggered demo_busy [(10, [100])].
Proof.
  repeat constructor. eexists. split; reflexivity.
Defined.

Lemma listen_refires_witness :
  listen 2 1 demo_busy
  = Some (Going,
          {| w_events :=
               <[20 := reset_times 2
                         (demo_event ["a"%char; "b"%char; "c"%char])]>
                 (w_events demo_busy);
             w_listeners := w_listeners demo_busy;
             w_trace := w_trace demo_busy
                          ++ concat (replicate 2
                                       (dispatch_trace (20, [101; 102]))) |}).
Proof.
  apply (listen_refires 2 demo_busy 1 demo_listener1 [(10, [100])] 20
           [101; 102] [(30, [103])]
           (demo_event ["a"%char; "b"%char; "c"%char]));
    [reflexivity|reflexivity|reflexivity|exact demo_busy_untriggered
    |reflexivity|].
  intros k Hk. destruct k as [|[|k]]; [reflexivity|reflexivity|lia].
Defined.

Lemma KeyEvent_queue_drained_witness :
  listen 3 1 demo_busy
  = Some (Going,
          {| w_events := <[20 := {| ev_cv := Some 1; ev_state := [] |}]>
                           (w_events demo_busy);
             w_listeners := w_listeners demo_busy;
             w_trace := w_trace demo_busy
                          ++ concat (replicate 3
                                       (dispatch_trace (20, [101; 102]))) |}).
Proof.
  apply (KeyEvent_queue_drained demo_busy 1 demo_listener1 [(10, [100])] 20
           [101; 102] [(30, [103])]
           (demo_event ["a"%char; "b"%char; "c"%char]));
    [reflexivity|reflexivity|reflexivity|exact demo_busy_untriggered
    |reflexivity].
Defined.

Lemma demo_instances_NoDup : NoDup [10; 20; 30].
Proof.
  change (NoDup (event2func demo_listener1).*1). exact demo_keys_NoDup.
Defined.

Lemma demo_instances_live :
  Forall (fun e => is_Some (w_events demo_world !! e)) [10; 20; 30].
Proof.
  repeat constructor; eexists; reflexivity.
Defined.

Lemma demo_bound_alive : bound_alive demo_world [10; 20; 30].
Proof.
  repeat constructor; intros E l HE Hcv; vm_compute in HE;
    injection HE as <-; injection Hcv as <-; eexists; reflexivity.
Defined.

Lemma KeyEvent_push_instances_notifies_witness :
  exists w',
    KeyEvent_push_instances [10; 20; 30] "x"%char demo_world
      = Some (tt, w') /\
    w_listeners w' = w_listeners demo_world /\
    (forall e, w_events w' !! e
               = if decide (e ∈ [10; 20; 30])
                 then KeyEvent_pushed "x"%char <$> w_events demo_world !! e
                 else w_events demo_world !! e) /\
    w_trace w' = w_trace demo_world
                   ++ flat_map (notify_trace demo_world) [10; 20; 30].
Proof.
  exact (KeyEvent_push_instances_notifies [10; 20; 30] "x"%char demo_world
           demo_instances_NoDup demo_instances_live demo_bound_alive).
Defined.



Lemma polling_demo_NoDup : NoDup (Polling.event2func Polling.demo_listener).*1.
Proof.
  apply NoDup_cons. split; [|apply NoDup_singleton].
  intros Hin. apply list_elem_of_singleton in Hin. discriminate.
Defined.

Lemma polling_demo_live :
  Forall (fun p : N * list N =>
            is_Some (Polling.w_events Polling.demo_world !! p.1))
    (Polling.event2func Polling.demo_listener).
Proof.
  repeat constructor; eexists; reflexivity.
Defined.

Lemma polling_sweep_witness :
  exists w',
    Polling.for_each (Polling.event2func Polling.demo_listener)
      Polling.sweep_entry Polling.demo_world = Some (tt, w') /\
    Polling.w_listeners w' = Polling.w_listeners Polling.demo_world /\
    Polling.w_trace w'
      = Polling.w_trace Polling.demo_world
          ++ flat_map (Polling.entry_trace Polling.demo_world)
               (Polling.event2func Polling.demo_listener) /\
    forall e, Polling.w_events w' !! e
              = if decide (e ∈ (Polling.event2func Polling.demo_listener).*1)
                then Polling.after_sweep
                       <$> Polling.w_events Polling.demo_world !! e
                else Polling.w_events Polling.demo_world !! e.
Proof.
  exact (polling_sweep (Polling.event2func Polling.demo_listener)
           Polling.demo_world polling_demo_NoDup polling_demo_live).
Defined.

Lemma polling_demo_clear :
  Forall (fun p : N * list N =>
            exists s, Polling.w_events Polling.demo_world !! p.1 = Some s /\
                      Polling.main_condition (Polling.after_sweep s) = false)
    (Polling.event2func Polling.demo_listener).
Proof.
  repeat constructor; eexists; split; reflexivity.
Defined.

Lemma polling_listen_backlog_witness :
  exists w',
    Polling.listen 3 1 Polling.demo_world = Some (Polling.Going, w') /\
    Polling.w_listeners w' = Polling.w_listeners Polling.demo_world /\
    Polling.w_trace w'
      = Polling.w_trace Polling.demo_world
          ++ flat_map (Polling.entry_trace Polling.demo_world)
               (Polling.event2func Polling.demo_listener)
          ++ replicate 3
               (Polling.Sleep
                  (Polling.listener_interval Polling.demo_listener)) /\
    forall e, Polling.w_events w' !! e
              = if decide (e ∈ (Polling.event2func Polling.demo_listener).*1)
                then Polling.after_sweep
                       <$> Polling.w_events Polling.demo_world !! e
                else Polling.w_events Polling.demo_world !! e.
Proof.
  apply (polling_listen_backlog 2 Polling.demo_world 1 Polling.demo_listener);
    [reflexivity|reflexivity|exact polling_demo_NoDup
    |exact polling_demo_clear].
Defined.

Lemma polling_stop_handshake_witness :
  exists w1 w2 w3,
    Polling.Listener_start 2 Polling.demo_world = Some (tt, w1) /\
    Polling.Listener_stop 2 w1 = Some (Polling.Spinning, w2) /\
    Polling.listen 1 2 w2 = Some (Polling.Returned, w3) /\
    Polling.spin 2 w3 = Some (Polling.Stopped, w3) /\
    Polling.w_listeners w3 = Polling.w_listeners Polling.demo_world /\
    Polling.w_events w3 = Polling.w_events Polling.demo_world /\
    Polling.w_trace w3
      = Polling.w_trace Polling.demo_world ++ [Polling.Spawn 2].
Proof.
  eapply (polling_stop_handshake Polling.demo_world 2 _ 0); reflexivity.
Defined.

Lemma register_event_while_running_witness :
  exists w1 w2,
    register_event 1 20 104 demo_world = Some (tt, w1) /\
    listen_body 1 w1 = Some (Dispatched, w2) /\
    w_trace w2 = w_trace demo_world ++ dispatch_trace (20, [101; 102] ++ [104]).
Proof.
  apply (register_event_while_running demo_world 1 demo_listener1
           [(10, [100])] 20 [101; 102] [(30, [103])]
           (demo_event ["a"%char]) 104);
    [reflexivity|reflexivity|reflexivity|cbn; lia|exact demo_untriggered
    |reflexivity|reflexivity].
Defined.

Lemma demo_null_listed : nullptr ∈ [2; nullptr].
Proof.
  apply elem_of_cons. right. apply elem_of_cons. by left.
Defined.

Lemma EventHandler_start_missing_listener_witness :
  EventHandler_start
    {| listeners := [2; nullptr]; listener_type := DYNAMIC_LISTENER;
       h_running := false |} demo_world = None.
Proof.
  apply (EventHandler_start_missing_listener
           {| listeners := [2; nullptr]; listener_type := DYNAMIC_LISTENER;
              h_running := false |} demo_world nullptr);
    [reflexivity|exact demo_null_listed|reflexivity].
Defined.

Lemma demo_twice : ~ NoDup [2; 1; 2].
Proof.
  intros Hnd. apply NoDup_cons in Hnd as [Hnotin _]. apply Hnotin.
  apply elem_of_cons. right. apply elem_of_cons. by left.
Defined.

Lemma EventHandler_cleanup_double_delete_witness :
  EventHandler_cleanup
    {| listeners := [2; 1; 2]; listener_type := DYNAMIC_LISTENER;
       h_running := true |} demo_world = None /\
  EventHandler_dtor
    {| listeners := [2; 1; 2]; listener_type := DYNAMIC_LISTENER;
       h_running := true |} demo_world = None.
Proof.
  apply (EventHandler_cleanup_double_delete
           {| listeners := [2; 1; 2]; listener_type := DYNAMIC_LISTENER;
              h_running := true |} demo_world);
    [reflexivity|repeat constructor; discriminate|exact demo_twice].
Defined.
